(** * SENDY: the turn engine of the pass-and-play board game

    A shallow embedding of [src/app/page.tsx].  The React component keeps one
    [GameState] value and changes it through [setState] updaters; every
    updater of the source is a function on [GameState] here, and the event
    handlers compose them.  JavaScript numbers are integers throughout the
    game logic and are modelled by [Z]; an array read [a[i]] is [arr_get],
    which yields [None] where JavaScript yields [undefined]; a handler whose
    updater would dereference [undefined] (a [TypeError]) or would store
    [NaN] returns [None]. *)

From stdpp Require Import base option list list_numbers strings pretty gmap.
From Stdlib Require Import ZArith Lia.

Local Open Scope Z_scope.

(** ** Constants and helpers *)

Definition MAX_PLAYERS : Z := 16.
Definition COLS : Z := 7.
Definition ROWS : Z := 5.
Definition TILE_COUNT : Z := COLS * ROWS.
Definition WIN_INDEX : Z := TILE_COUNT - 1.

Definition PLAYER_COLORS : list string :=
  [ "#FF3B30"; "#FF9500"; "#FFCC00"; "#34C759"; "#00C7BE";
    "#32ADE6"; "#007AFF"; "#5856D6"; "#AF52DE"; "#FF2D55";
    "#FF6B6B"; "#4D96FF"; "#6BCB77"; "#FFD93D"; "#845EC2"; "#00A8E8" ].

(** [clamp(n, a, b) = Math.max(a, Math.min(b, n))] *)
Definition clamp (n a b : Z) : Z := Z.max a (Z.min b n).

(** [a[i]] for an integer index: [undefined] (here [None]) outside the array. *)
Definition arr_get {A} (a : list A) (i : Z) : option A :=
  if bool_decide (i < 0) then None else a !! Z.to_nat i.

(** [a[i] = x] for an index that is known to be inside the array. *)
Definition arr_set {A} (a : list A) (i : Z) (x : A) : list A :=
  if bool_decide (i < 0) then a else <[Z.to_nat i := x]> a.

(** The integers visited by [for (let i = lo; i <= hi; i++)]. *)
Definition upto (lo hi : Z) : list Z := seqZ lo (hi - lo + 1).

(** ** Tiles *)

Inductive TileType :=
  | start | path | safe
  | sip2 | sip3 | sip5 | sip10
  | chug10s | shotgun | finish
  | back5 | snap | tiktok | dare | win.

Global Instance TileType_eq_dec : EqDecision TileType.
Proof. solve_decision. Defined.

Module Tile.
Record t := mk { i : Z; type : TileType; label : string }.
End Tile.

Record TileText := mkText { text_title : string; text_subtitle : string }.

Definition TILE_TEXT (t : TileType) : TileText :=
  match t with
  | start => mkText "SENDY" "Everyone starts here. Don’t be soft."
  | path => mkText "Move" "Nothing special. Next up."
  | safe => mkText "SAFE ✅" "No effect. You’re chilling."
  | sip2 => mkText "2 SIPS" "Take 2 sips."
  | sip3 => mkText "3 SIPS" "Take 3 sips."
  | sip5 => mkText "5 SIPS" "Take 5 sips."
  | sip10 => mkText "10 SIPS" "Take 10 sips. Count ’em."
  | chug10s => mkText "CHUG ⏱️" "Chug your drink for 10 seconds."
  | shotgun => mkText "SHOTGUN 💥" "Shotgun a new drink."
  | finish => mkText "FINISH 🚨" "Finish your drink."
  | back5 => mkText "BACK 5 ⬅️" "Go back 5 spaces (and resolve that tile)."
  | snap => mkText "SNAP 📸"
      "Other players can post something on your Snapchat story for 10 minutes. You must start the timer to continue."
  | tiktok => mkText "TIKTOK 🎬"
      "Other players pick a TikTok for you to do. You must start the 60-minute timer to continue."
  | dare => mkText "DARE 🎯" "Other players pick a dare for you to do."
  | win => mkText "WIN 🏁" "You must land exactly here to win."
  end.

(** [String(i)] for an integer. *)
Definition String_of (n : Z) : string := pretty n.

(** The local helper [set] of [buildBoard]: out-of-range indices are ignored. *)
Definition set (board : list Tile.t) (i : Z) (type : TileType) (label : string)
  : list Tile.t :=
  if bool_decide (i < 0 ∨ i >= TILE_COUNT) then board
  else arr_set board i (Tile.mk i type label).

(** [xs.forEach((i) => set(i, type, label))] *)
Definition set_each (xs : list Z) (type : TileType) (label : string)
    (board : list Tile.t) : list Tile.t :=
  foldl (λ b i, set b i type label) board xs.

Definition buildBoard : list Tile.t :=
  let board := (λ i, Tile.mk i path (String_of i)) <$> seqZ 0 TILE_COUNT in
  let board := set board 0 start "START" in
  let board := set board WIN_INDEX win "WIN" in
  let board := set_each [1; 14; 29] safe "SAFE" board in
  let board := set_each [6; 22] sip2 "2" board in
  let board := set_each [2; 7; 11; 15; 18; 21; 30] sip3 "3" board in
  let board := set_each [4; 19; 25; 28] sip5 "5" board in
  let board := set_each [9; 16] sip10 "10" board in
  let board := set_each [20; 26] chug10s "CHUG" board in
  let board := set board 24 shotgun "SHOTGUN" in
  let board := set_each [32; 33] finish "FINISH" board in
  let board := set board 12 back5 "BACK 5" in
  let board := set board 10 snap "SNAP" in
  let board := set board 17 snap "SNAP" in
  let board := set board 8 dare "DARE" in
  let board := set board 13 tiktok "TIKTOK" in
  let board := set board 27 tiktok "TIKTOK" in
  board.


(** ** Game types *)

Module Player.
Record t := mk { id : string; name : string; pos : Z; color : string }.
(** [{ ...pp, pos }] *)
Definition with_pos (pos : Z) (pp : t) : t := mk (id pp) (name pp) pos (color pp).
End Player.

Module GameTimer.
Record t := mk { id : string; label : string; endsAt : Z }.
End GameTimer.

Inductive PopupAction := continue | startSnapTimer | startTikTokTimer.

Global Instance PopupAction_eq_dec : EqDecision PopupAction.
Proof. solve_decision. Defined.

Module Popup.
Record t := mk { title : string; subtitle : string; button : string;
                 action : PopupAction }.
End Popup.

Inductive Phase := lobby | playing | finished.

Global Instance Phase_eq_dec : EqDecision Phase.
Proof. solve_decision. Defined.

(** The optional fields [lastRoll?], [popup?] and [winnerName?] are [None]
    when they are [undefined]. *)
Record GameState := mkState {
  phase : Phase;
  board : list Tile.t;
  players : list Player.t;
  current : Z;
  passScreen : bool;
  lastRoll : option Z;
  popup : option Popup.t;
  timers : list GameTimer.t;
  winnerName : option string;
  animating : bool;
}.

Definition initialState : GameState :=
  {| phase := lobby; board := buildBoard; players := []; current := 0;
     passScreen := false; lastRoll := None; popup := None; timers := [];
     winnerName := None; animating := false |}.

(** Spread updates [{ ...s, field: v }] of a single field. *)
Definition with_players (v : list Player.t) (s : GameState) : GameState :=
  mkState (phase s) (board s) v (current s) (passScreen s) (lastRoll s)
          (popup s) (timers s) (winnerName s) (animating s).
Definition with_timers (v : list GameTimer.t) (s : GameState) : GameState :=
  mkState (phase s) (board s) (players s) (current s) (passScreen s)
          (lastRoll s) (popup s) v (winnerName s) (animating s).
Definition with_passScreen (v : bool) (s : GameState) : GameState :=
  mkState (phase s) (board s) (players s) (current s) v (lastRoll s)
          (popup s) (timers s) (winnerName s) (animating s).
Definition with_animating (v : bool) (s : GameState) : GameState :=
  mkState (phase s) (board s) (players s) (current s) (passScreen s)
          (lastRoll s) (popup s) (timers s) (winnerName s) v.

(** ** Strings

    A name is a [string].  The two methods of [String.prototype] that
    [addPlayer] calls, [trim] and [toLowerCase], are the host's: Unicode
    decides which characters are white space and which letters have a lower
    case.  They are parameters of the model, and nothing is assumed of
    them. *)

Class HostStrings := mkHost {
  trim : string → string;
  toLowerCase : string → string;
}.

(** A host for the sample sessions.  It agrees with JavaScript on the
    strings of ASCII characters: [ascii_trim] strips the characters 9 to 13
    and 32 from both ends, [ascii_toLowerCase] maps the letters A to Z. *)

Definition is_space (c : Ascii.ascii) : bool :=
  let n := Ascii.nat_of_ascii c in
  ((9 <=? n)%nat && (n <=? 13)%nat) || (n =? 32)%nat.

Fixpoint trimStart (s : string) : string :=
  match s with
  | String c r => if is_space c then trimStart r else s
  | EmptyString => EmptyString
  end.

Fixpoint trimEnd (s : string) : string :=
  match s with
  | String c r =>
      match trimEnd r with
      | EmptyString => if is_space c then EmptyString else String c EmptyString
      | r' => String c r'
      end
  | EmptyString => EmptyString
  end.

Definition ascii_trim (s : string) : string := trimEnd (trimStart s).

Definition lower_char (c : Ascii.ascii) : Ascii.ascii :=
  let n := Ascii.nat_of_ascii c in
  if ((65 <=? n)%nat && (n <=? 90)%nat) then Ascii.ascii_of_nat (n + 32) else c.

Fixpoint ascii_toLowerCase (s : string) : string :=
  match s with
  | String c r => String (lower_char c) (ascii_toLowerCase r)
  | EmptyString => EmptyString
  end.

Definition ascii_host : HostStrings := mkHost ascii_trim ascii_toLowerCase.

(** ** Lobby operations *)

(** [pickPlayerColor(used)].  [Math.floor(Math.random() * pool.length)] is
    an index below [pool.length]; the draw [rnd] stands for the random
    number and is reduced into that range. *)
Definition pickPlayerColor (rnd : nat) (used : gset string) : string :=
  let available := filter (λ c, c ∉ used) PLAYER_COLORS in
  let pool := if bool_decide (available = []) then PLAYER_COLORS else available in
  nth (rnd mod length pool)%nat pool "".

(** [addPlayer(nameRaw)]; [uuid] is the value of [crypto.randomUUID()]. *)
Definition addPlayer {host : HostStrings} (nameRaw uuid : string) (rnd : nat)
    (s : GameState) : GameState :=
  let name := trim nameRaw in
  if bool_decide (name = "") then s
  else if bool_decide (Z.of_nat (length (players s)) >= MAX_PLAYERS) then s
  else if existsb
            (λ p, bool_decide (toLowerCase (Player.name p) = toLowerCase name))
            (players s)
  then s
  else
    let used : gset string := list_to_set (Player.color <$> players s) in
    let color := pickPlayerColor rnd used in
    with_players (players s ++ [Player.mk uuid name 0 color]) s.

Definition removePlayer (id : string) (s : GameState) : GameState :=
  with_players (filter (λ p, Player.id p ≠ id) (players s)) s.

(** The lobby's [onReset]: [{ ...s, players: [] }]. *)
Definition lobbyClear (s : GameState) : GameState := with_players [] s.

Definition startGame (s : GameState) : GameState :=
  if bool_decide (Z.of_nat (length (players s)) < 2) then s
  else
    {| phase := playing; board := board s; players := players s; current := 0;
       passScreen := true; lastRoll := None; popup := None;
       timers := timers s; winnerName := None; animating := false |}.

Definition onReady (s : GameState) : GameState := with_passScreen false s.

(** ** Timers *)

Definition clearTimer (id : string) (s : GameState) : GameState :=
  with_timers (filter (λ t, GameTimer.id t ≠ id) (timers s)) s.

(** The callback of the 5000 ms interval; [now] is [nowMs()]. *)
Definition sweepTick (now : Z) (s : GameState) : GameState :=
  with_timers (filter (λ x, GameTimer.endsAt x > now) (timers s)) s.

(** The effect installs the interval only while the phase is [playing]. *)
Definition sweepEffect (now : Z) (s : GameState) : GameState :=
  if bool_decide (phase s ≠ playing) then s else sweepTick now s.

(** ** Turn engine *)

(** [rollDice()]: [Math.floor(Math.random() * 6)] is one of 0..5; the draw
    [rnd] stands for the random number. *)
Definition rollDice (rnd : Z) : Z := rnd `mod` 6 + 1.

(** The cells visited by the token, in order ([path] of [animateMove]). *)
Definition movePath (start steps : Z) : list Z :=
  let rawTarget := start + steps in
  if bool_decide (rawTarget <= WIN_INDEX) then upto (start + 1) rawTarget
  else
    let overshoot := rawTarget - WIN_INDEX in
    upto (start + 1) WIN_INDEX ++ ((λ b, WIN_INDEX - b) <$> upto 1 overshoot).

(** One animation step: [players[s.current].pos = pos] on a copy of the
    players, and [lastRoll: steps]. *)
Definition stepTo (steps pos : Z) (s : GameState) : option GameState :=
  me ← arr_get (players s) (current s);
  Some {| phase := phase s; board := board s;
          players := arr_set (players s) (current s) (Player.with_pos pos me);
          current := current s; passScreen := passScreen s;
          lastRoll := Some steps; popup := popup s; timers := timers s;
          winnerName := winnerName s; animating := animating s |}.

(** [for (const pos of path) setState(...)] *)
Fixpoint walk (steps : Z) (path : list Z) (s : GameState) : option GameState :=
  match path with
  | [] => Some s
  | pos :: rest => s' ← stepTo steps pos s; walk steps rest s'
  end.

Definition popupFor (type : TileType) (button : string) (action : PopupAction)
  : Popup.t :=
  Popup.mk (text_title (TILE_TEXT type)) (text_subtitle (TILE_TEXT type))
           button action.

(** [resolveTile(t)], closed over the state [s], the copied [players] and the
    current player [me]. *)
Definition resolveTile (s : GameState) (players : list Player.t)
    (me : Player.t) (t : TileType) : GameState :=
  let shown (p : Popup.t) :=
    mkState (phase s) (board s) players (current s) (passScreen s)
            (lastRoll s) (Some p) (timers s) (winnerName s) false in
  match t with
  | win =>
      {| phase := finished; board := board s; players := players;
         current := current s; passScreen := passScreen s;
         lastRoll := lastRoll s; popup := Some (popupFor win "NEW GAME" continue);
         timers := timers s; winnerName := Some (Player.name me);
         animating := false |}
  | snap => shown (popupFor snap "START 10:00 TIMER" startSnapTimer)
  | tiktok => shown (popupFor tiktok "START 60:00 TIMER" startTikTokTimer)
  | dare => shown (popupFor dare "CONTINUE" continue)
  | _ => shown (popupFor t "CONTINUE" continue)
  end.

(** The last updater of [animateMove]: resolve the landing and set the popup. *)
Definition resolveLanding (s : GameState) : option GameState :=
  me ← arr_get (players s) (current s);
  tile ← arr_get (board s) (Player.pos me);
  if bool_decide (Tile.type tile = back5) then
    let me' := Player.with_pos (clamp (Player.pos me - 5) 0 WIN_INDEX) me in
    let players' := arr_set (players s) (current s) me' in
    landed ← arr_get (board s) (Player.pos me');
    Some (resolveTile s players' me' (Tile.type landed))
  else Some (resolveTile s (players s) me (Tile.type tile)).

(** The movement part of [animateMove]: the token walks along the path that
    was computed from the state at the time of the call. *)
Definition moveToken (steps : Z) (s : GameState) : option GameState :=
  p0 ← arr_get (players s) (current s);
  walk steps (movePath (Player.pos p0) steps) (with_animating true s).

(** [animateMove(steps)] left to run: its updaters back to back, as they go
    when nothing else happens during the awaited delays.  The updaters are
    [with_animating true], [stepTo] for each cell of the path and
    [resolveLanding]; [reachable] below lets other events run between
    them. *)
Definition animateMove (steps : Z) (s : GameState) : option GameState :=
  s' ← moveToken steps s; resolveLanding s'.

Definition onRoll (rnd : Z) (s : GameState) : option GameState :=
  if bool_decide (phase s ≠ playing) then Some s
  else if passScreen s then Some s
  else if animating s then Some s
  else if bool_decide (is_Some (popup s)) then Some s
  else animateMove (rollDice rnd) s.

(** [advanceTurn()].  JavaScript's [%] is the truncated remainder; with no
    player it yields [NaN], which is no index. *)
Definition advanceTurn (s : GameState) : option GameState :=
  if bool_decide (players s = []) then None
  else
    Some {| phase := phase s; board := board s; players := players s;
            current := (current s + 1) `rem` Z.of_nat (length (players s));
            passScreen := true; lastRoll := None; popup := None;
            timers := timers s; winnerName := winnerName s;
            animating := animating s |}.

(** The two timer updaters of [handlePopupPress]; [now] is [nowMs()] and
    [uuid] is [crypto.randomUUID()]. *)
Definition addSnapTimer (now : Z) (uuid : string) (s : GameState)
  : option GameState :=
  p ← arr_get (players s) (current s);
  let timer := GameTimer.mk uuid ("SNAP: " +:+ Player.name p)
                            (now + 10 * 60 * 1000) in
  Some (with_timers (timer :: timers s) s).

Definition addTikTokTimer (now : Z) (uuid : string) (s : GameState)
  : option GameState :=
  p ← arr_get (players s) (current s);
  let timer := GameTimer.mk uuid ("TIKTOK: " +:+ Player.name p)
                            (now + 60 * 60 * 1000) in
  Some (with_timers (timer :: timers s) s).

(** ** Persistence

    [localStorage] is a map from keys to strings; every access of the source
    sits in a [try] block, so a store that throws on access is modelled
    too. *)

Inductive Storage :=
  | Unavailable
  | Available (items : gmap string string).

Definition KEY : string := "sendy_state_v1".

(** [localStorage.getItem(k)]: [None] when the call throws. *)
Definition getItem (st : Storage) (k : string) : option (option string) :=
  match st with
  | Unavailable => None
  | Available items => Some (items !! k)
  end.

Definition clearSaved (st : Storage) : Storage :=
  match st with
  | Unavailable => Unavailable
  | Available items => Available (delete KEY items)
  end.

(** The page: the React state together with the browser's store. *)
Record World := mkWorld { storage : Storage; state : GameState }.

Definition lift (f : GameState → option GameState) (w : World) : option World :=
  s' ← f (state w); Some (mkWorld (storage w) s').

Definition newGame (w : World) : World :=
  mkWorld (clearSaved (storage w)) initialState.

(** The [onClick] of the BACK TO LOBBY button. *)
Definition backToLobby (w : World) : World :=
  let s := state w in
  mkWorld (clearSaved (storage w))
    {| phase := lobby; board := board s; players := players s;
       current := current s; passScreen := false; lastRoll := lastRoll s;
       popup := None; timers := timers s; winnerName := None;
       animating := animating s |}.

Definition handlePopupPress (now : Z) (uuid : string) (w : World)
  : option World :=
  match popup (state w) with
  | None => Some w
  | Some popup =>
      if bool_decide (phase (state w) = finished) then Some (newGame w)
      else
        match Popup.action popup with
        | startSnapTimer =>
            lift (λ s, s' ← addSnapTimer now uuid s; advanceTurn s') w
        | startTikTokTimer =>
            lift (λ s, s' ← addTikTokTimer now uuid s; advanceTurn s') w
        | continue => lift advanceTurn w
        end
  end.

(** *** Parsed JSON

    The values [JSON.parse] can return.  A finite double is
    [mantissa * 2 ^ exponent]; an object lists its own properties, each key
    once. *)

Inductive JsNumber :=
  | Finite (mantissa exponent : Z)
  | Infinity (negative : bool).

#[local] Set Warnings "-register-all".
Inductive JsValue :=
  | JNull
  | JBool (b : bool)
  | JNum (n : JsNumber)
  | JStr (s : string)
  | JArr (elems : list JsValue)
  | JObj (fields : list (string * JsValue)).

(** [!v] is [negb (truthy v)]. *)
Definition truthy (v : JsValue) : bool :=
  match v with
  | JNull => false
  | JBool b => b
  | JNum (Finite m _) => negb (bool_decide (m = 0))
  | JNum (Infinity _) => true
  | JStr s => negb (bool_decide (s = ""))
  | JArr _ | JObj _ => true
  end.

Fixpoint own_property (k : string) (fields : list (string * JsValue))
  : option JsValue :=
  match fields with
  | [] => None
  | (k', v) :: rest => if bool_decide (k' = k) then Some v else own_property k rest
  end.

(** [v.k] for one of the keys [board] and [players], which no built-in
    prototype defines: the own property of an object, [undefined] (here
    [None]) on anything else. *)
Definition get_field (k : string) (v : JsValue) : option JsValue :=
  match v with
  | JObj fields => own_property k fields
  | _ => None
  end.

(** [!x] for a possibly undefined value. *)
Definition falsy (x : option JsValue) : bool :=
  match x with
  | None => true
  | Some v => negb (truthy v)
  end.

Section Json.
(** The host's [JSON.parse] ([None] when it throws a [SyntaxError]) and
    [JSON.stringify]. *)
Variable JSON_parse : string → option JsValue.
Variable JSON_stringify : GameState → string.

(** [loadState()]; the result is the parsed value, which the source casts
    to [GameState] unchecked. *)
Definition loadState (st : Storage) : option JsValue :=
  match getItem st KEY with
  | None => None                                   (* catch *)
  | Some None => None                              (* !raw: null *)
  | Some (Some raw) =>
      if bool_decide (raw = "") then None          (* !raw: empty string *)
      else
        match JSON_parse raw with
        | None => None                             (* catch *)
        | Some parsed =>
            if negb (truthy parsed) || falsy (get_field "board" parsed)
               || falsy (get_field "players" parsed)
            then None
            else Some parsed
        end
  end.

(** [saveState(s)] *)
Definition saveState (s : GameState) (st : Storage) : Storage :=
  match st with
  | Unavailable => Unavailable
  | Available items => Available (<[KEY := JSON_stringify s]> items)
  end.

(** The effect that runs after every change of the state. *)
Definition saveEffect (w : World) : World :=
  if animating (state w) then w
  else mkWorld (saveState (state w) (storage w)) (state w).
End Json.

(** ** The page as a state machine

    The events a user or the clock can raise, the condition under which the
    control that raises each of them is rendered, and the handler that
    runs. *)

Inductive Event :=
  | AddPlayer (nameRaw uuid : string) (rnd : nat)
  | RemovePlayer (id : string)
  | LobbyClear
  | StartGame
  | Ready
  | Roll (rnd : Z)
  | PopupPress (now : Z) (uuid : string)
  | ClearTimer (id : string)
  | SweepTick (now : Z)
  | BackToLobby
  | NewGame.

(** The lobby is rendered in phase [lobby] only, the board with its buttons
    and the timers in the other phases, the pass overlay while a hand-over is
    pending, the popup modal while there is a popup; the header is always
    there, and the sweep interval exists while the phase is [playing]. *)
Definition enabled (e : Event) (s : GameState) : bool :=
  match e with
  | AddPlayer _ _ _ | RemovePlayer _ | LobbyClear | StartGame =>
      bool_decide (phase s = lobby)
  | Ready =>
      bool_decide (phase s = playing) && passScreen s
      && bool_decide (is_Some (arr_get (players s) (current s)))
  | Roll _ | ClearTimer _ | BackToLobby => bool_decide (phase s ≠ lobby)
  | PopupPress _ _ => bool_decide (is_Some (popup s))
  | SweepTick _ => bool_decide (phase s = playing)
  | NewGame => true
  end.

Definition update (f : GameState → GameState) (w : World) : option World :=
  Some (mkWorld (storage w) (f (state w))).

(** The handler of an event, run to its end.  A click handler reads the
    state of the latest render, which is the state at the time of the click.
    For [Roll] the handler is [onRoll] with the whole animation, as it goes
    when nothing else happens while the token moves; [reachable] below takes
    the animation apart. *)
Definition handle {host : HostStrings} (e : Event) (w : World) : option World :=
  match e with
  | AddPlayer nameRaw uuid rnd => update (addPlayer nameRaw uuid rnd) w
  | RemovePlayer id => update (removePlayer id) w
  | LobbyClear => update lobbyClear w
  | StartGame => update startGame w
  | Ready => update onReady w
  | Roll rnd => lift (onRoll rnd) w
  | PopupPress now uuid => handlePopupPress now uuid w
  | ClearTimer id => update (clearTimer id) w
  | SweepTick now => update (sweepTick now) w
  | BackToLobby => Some (backToLobby w)
  | NewGame => Some (newGame w)
  end.

(** The guards of [onRoll]: whether a click on the roll button starts a
    roll. *)
Definition rollable (s : GameState) : bool :=
  bool_decide (phase s = playing) && negb (passScreen s) && negb (animating s)
  && bool_decide (popup s = None).

Definition is_roll (e : Event) : bool :=
  match e with
  | Roll _ => true
  | _ => false
  end.

(** The worlds the page goes through.

    The page starts from the initial state or from a saved snapshot, and
    RESUME puts a saved snapshot back; a snapshot is a state that
    [saveState] wrote earlier, and it is never written while [animating].
    The save effect may run after any change.

    An event other than a roll is handled at once, by [handle].  A roll is
    not: [animateMove] is asynchronous.  It sets [animating], and then
    awaits a delay before each of its further updaters, one for every cell
    of the path and one for the landing; meanwhile NEW GAME, BACK TO LOBBY,
    the lobby, the timers and the sweep go on, and each updater is applied
    to the state it finds.  So the updaters of a roll are steps of their
    own here: a click that passes the guards of [onRoll] sets [animating]
    ([reachable_roll_begin]); a cell of the path of a roll that began in an
    earlier world [w0] is written into the present state
    ([reachable_roll_move]); a landing is resolved in the present state
    ([reachable_roll_land]).  Nothing is assumed of the order and number of
    these steps or of what lies between them.

    An updater that throws leaves no state behind, and neither does
    [advanceTurn] on an empty roster, whose index would be [NaN]. *)
Inductive reachable {host : HostStrings} : World → Prop :=
  | reachable_init st : reachable (mkWorld st initialState)
  | reachable_resume w w0 :
      reachable w → reachable w0 → animating (state w0) = false →
      reachable (mkWorld (storage w) (state w0))
  | reachable_save stringify w :
      reachable w → reachable (saveEffect stringify w)
  | reachable_event e w w' :
      reachable w → is_roll e = false →
      enabled e (state w) = true → handle e w = Some w' →
      reachable w'
  | reachable_roll_begin w :
      reachable w → rollable (state w) = true →
      reachable (mkWorld (storage w) (with_animating true (state w)))
  | reachable_roll_move w0 p0 rnd pos w s' :
      reachable w0 → rollable (state w0) = true →
      arr_get (players (state w0)) (current (state w0)) = Some p0 →
      pos ∈ movePath (Player.pos p0) (rollDice rnd) →
      reachable w →
      stepTo (rollDice rnd) pos (state w) = Some s' →
      reachable (mkWorld (storage w) s')
  | reachable_roll_land w s' :
      reachable w → resolveLanding (state w) = Some s' →
      reachable (mkWorld (storage w) s').

(** Handling a list of events in order, each to its end. *)
Fixpoint run {host : HostStrings} (es : list Event) (w : World) : option World :=
  match es with
  | [] => Some w
  | e :: rest =>
      if enabled e (state w) then w' ← handle e w; run rest w' else None
  end.

(** ** Predicates of the statements *)

(** The popup a cell of type [t] produces. *)
Definition tilePopup (t : TileType) : Popup.t :=
  match t with
  | win => popupFor win "NEW GAME" continue
  | snap => popupFor snap "START 10:00 TIMER" startSnapTimer
  | tiktok => popupFor tiktok "START 60:00 TIMER" startTikTokTimer
  | _ => popupFor t "CONTINUE" continue
  end.

(** A board of 35 cells whose only [win] cell is the last one. *)
Definition exact_win_board (b : list Tile.t) : Prop :=
  length b = 35%nat
  ∧ ∀ k t, arr_get b k = Some t → (Tile.type t = win ↔ k = WIN_INDEX).

(** Where the specification's chained resolution ends: follow [back5] cells,
    five cells back each time, until a cell of another type is reached.
    Every relocation from a cell above 0 lowers the position, so a fuel of
    the board's length is enough unless cell 0 is itself a [back5] cell. *)
Fixpoint spec_chain_end (fuel : nat) (b : list Tile.t) (pos : Z) : option Z :=
  tile ← arr_get b pos;
  if bool_decide (Tile.type tile = back5) then
    match fuel with
    | O => None
    | S fuel' => spec_chain_end fuel' b (Z.max 0 (pos - 5))
    end
  else Some pos.

(** A string of the white space of [ascii_trim] only (the empty string
    included). *)
Fixpoint blank (s : string) : bool :=
  match s with
  | String c r => is_space c && blank r
  | EmptyString => true
  end.

(** What holds of every state of the page: the board is the built one, the
    players stand on the board, a game in play has two players or more, and
    outside the lobby the current index points at a player. *)
Record steady (s : GameState) : Prop := mkSteady {
  steady_board : board s = buildBoard;
  steady_positions : Forall (λ p, 0 ≤ Player.pos p ≤ 34) (players s);
  steady_play : phase s = playing → (2 ≤ length (players s))%nat;
  steady_turn : phase s ≠ lobby → 0 ≤ current s < Z.of_nat (length (players s));
}.

(** ** Sample sessions *)

(** Three players in turn order, the first on cell 30. *)
Definition three_players : list Player.t :=
  [ Player.mk "id-a" "A" 30 "#FF3B30";
    Player.mk "id-b" "B" 4 "#FF9500";
    Player.mk "id-c" "C" 11 "#FFCC00" ].

Definition game_at_30 : GameState :=
  {| phase := playing; board := buildBoard; players := three_players;
     current := 0; passScreen := false; lastRoll := None; popup := None;
     timers := []; winnerName := None; animating := false |}.

(** The built board with a second [back5] cell on 17, five cells above the
    one on 12. *)
Definition chained_board : list Tile.t := set buildBoard 17 back5 "BACK 5".

Definition game_on_17 : GameState :=
  {| phase := playing; board := chained_board;
     players := [ Player.mk "id-a" "A" 17 "#FF3B30";
                  Player.mk "id-b" "B" 4 "#FF9500" ];
     current := 0; passScreen := false; lastRoll := Some 3; popup := None;
     timers := []; winnerName := None; animating := true |}.

(** The same board, the player three cells below the [back5] cell on 17. *)
Definition game_on_14 : GameState :=
  {| phase := playing; board := chained_board;
     players := [ Player.mk "id-a" "A" 14 "#FF3B30";
                  Player.mk "id-b" "B" 4 "#FF9500" ];
     current := 0; passScreen := false; lastRoll := None; popup := None;
     timers := []; winnerName := None; animating := false |}.


Definition game_with_expired_timer : GameState :=
  {| phase := playing; board := buildBoard; players := three_players;
     current := 1; passScreen := false; lastRoll := None; popup := None;
     timers := [ GameTimer.mk "t-1" "SNAP: A" 600000 ];
     winnerName := None; animating := false |}.

Definition lobby_with_Amy : GameState :=
  with_players [ Player.mk "id-1" "Amy" 0 "#FF3B30" ] initialState.

(** A full lobby: sixteen players, named after their number. *)
Definition full_lobby : GameState :=
  foldl (λ s k, addPlayer (host := ascii_host)
                  ("P" +:+ pretty k) ("id-" +:+ pretty k) (Z.to_nat k) s)
        initialState (seqZ 1 16).

(** Player A, on a dare cell, has a popup to confirm. *)
Definition game_with_popup (p : Popup.t) : World :=
  mkWorld (Available ∅)
    {| phase := playing; board := buildBoard; players := three_players;
       current := 2; passScreen := false; lastRoll := Some 3; popup := Some p;
       timers := []; winnerName := None; animating := false |}.

(** The game that player A has just won, with its snapshot in the store. *)
Definition won_game : World :=
  mkWorld (Available {[ KEY := "{...}" ]})
    {| phase := finished; board := buildBoard;
       players := [ Player.mk "id-a" "A" 34 "#FF3B30";
                    Player.mk "id-b" "B" 4 "#FF9500";
                    Player.mk "id-c" "C" 11 "#FFCC00" ];
       current := 0; passScreen := false; lastRoll := Some 4;
       popup := Some (popupFor win "NEW GAME" continue);
       timers := [ GameTimer.mk "t-1" "SNAP: B" 600000 ];
       winnerName := Some "A"; animating := false |}.

(** A short game of two players: Amy rolls a four, Bo a one, and Amy's six
    then takes her from cell 4 to the snap cell 10. *)
Definition opening : list Event :=
  [ AddPlayer "Amy" "id-1" 0; AddPlayer "Bo" "id-2" 1; StartGame; Ready;
    Roll 3; PopupPress 1000 "t-0"; Ready;
    Roll 0; PopupPress 2000 "t-0"; Ready;
    Roll 5 ].

Definition amy_on_snap : World :=
  mkWorld (Available ∅)
    {| phase := playing; board := buildBoard;
       players := [ Player.mk "id-1" "Amy" 10 "#FF3B30";
                    Player.mk "id-2" "Bo" 1 "#FFCC00" ];
       current := 0; passScreen := false; lastRoll := Some 6;
       popup := Some (popupFor snap "START 10:00 TIMER" startSnapTimer);
       timers := []; winnerName := None; animating := false |}.

(** A stand-in for [JSON.parse] that knows three texts and throws on every
    other one. *)
Definition three_text_parse (raw : string) : option JsValue :=
  if bool_decide (raw = "null") then Some JNull
  else if bool_decide (raw = "{}") then Some (JObj [])
  else if bool_decide (raw = "[]") then Some (JArr [])
  else None.

(** ** Further functions of the page *)

(** [boardIndexFromGridCell(gridRowTop, gridCol)]: the snake layout. *)
Definition boardIndexFromGridCell (gridRowTop gridCol : Z) : Z :=
  let rowFromBottom := ROWS - 1 - gridRowTop in
  let base := rowFromBottom * COLS in
  let reverse := bool_decide (rowFromBottom `rem` 2 = 1) in
  if reverse then base + (COLS - 1 - gridCol) else base + gridCol.

(** The board index [bi] drawn in the grid cell [gridIdx] of the render
    loop: [rTop = Math.floor(gridIdx / COLS)], [c = gridIdx % COLS]. *)
Definition gridTile (gridIdx : Z) : Z :=
  boardIndexFromGridCell (gridIdx `div` COLS) (gridIdx `rem` COLS).

(** [s.padStart(n, "0")] *)
Definition padStart0 (n : nat) (s : string) : string :=
  String.concat "" (replicate (n - String.length s) "0") +:+ s.

(** [fmt(ms)] for an integer number of milliseconds. *)
Definition fmt (ms : Z) : string :=
  let total := Z.max 0 (ms `div` 1000) in
  let m := total `div` 60 in
  let s := total `rem` 60 in
  String_of m +:+ ":" +:+ padStart0 2 (String_of s).

(** What the timers corner shows for a timer at time [now]. *)
Definition timerText (now : Z) (t : GameTimer.t) : string :=
  let remaining := GameTimer.endsAt t - now in
  let done := bool_decide (remaining <= 0) in
  if done then "DONE" else fmt remaining.

(** ** Further predicates of the statements *)

(** The decimal digit [k] as a character. *)
Definition digit (k : Z) : Ascii.ascii := Ascii.ascii_of_nat (48 + Z.to_nat k).

(** Where a token that starts on [p] stands after [k] single steps towards
    the last cell and back. *)
Definition reflected (p k : Z) : Z :=
  if bool_decide (p + k ≤ WIN_INDEX) then p + k
  else WIN_INDEX - (p + k - WIN_INDEX).

(** [k] turns passed on, one after the other. *)
Fixpoint advanceTurns (k : nat) (s : GameState) : option GameState :=
  match k with
  | O => Some s
  | S k' => s' ← advanceTurn s; advanceTurns k' s'
  end.

(** The roster as the lobby means it to be: at most sixteen players, names
    that are not empty, that are the trimmed form of what was typed and that
    differ up to case, colours of the palette that differ. *)
Record tidy {host : HostStrings} (s : GameState) : Prop := mkTidy {
  tidy_size : (length (players s) ≤ 16)%nat;
  tidy_names : Forall (λ p, Player.name p ≠ "" ∧ ∃ raw, Player.name p = trim raw)
                      (players s);
  tidy_names_differ : NoDup ((λ p, toLowerCase (Player.name p)) <$> players s);
  tidy_colours : Forall (λ p, Player.color p ∈ PLAYER_COLORS) (players s);
  tidy_colours_differ : NoDup (Player.color <$> players s);
}.

(** A stand-in for [JSON.stringify] and [JSON.parse] on one text: every state
    is written as the same text, which parses to an object with two empty
    arrays. *)
Definition one_text_stringify (s : GameState) : string := "{snapshot}".

Definition one_text_parse (raw : string) : option JsValue :=
  if bool_decide (raw = "{snapshot}")
  then Some (JObj [ ("board", JArr []); ("players", JArr []) ])
  else None.

(** One turn: the pass screen is dismissed, the die is rolled, the popup is
    confirmed. *)
Definition turn (rnd now : Z) : list Event :=
  [ Ready; Roll rnd; PopupPress now "t-1" ].

(** A whole game of two players, from the lobby to Amy's exact landing on
    the last cell: she rolls 6, 5, 6, 6, 6 and 5, Bo rolls ones. *)
Definition winning_game : list Event :=
  [ AddPlayer "Amy" "id-1" 0; AddPlayer "Bo" "id-2" 1; StartGame ]
  ++ turn 5 100 ++ turn 0 200 ++ turn 4 300 ++ turn 0 400 ++ turn 5 500
  ++ turn 0 600 ++ turn 5 700 ++ turn 0 800 ++ turn 5 900 ++ turn 0 1000
  ++ [ Ready; Roll 4 ].

Definition amy_wins : World :=
  mkWorld (Available ∅)
    {| phase := finished; board := buildBoard;
       players := [ Player.mk "id-1" "Amy" 34 "#FF3B30";
                    Player.mk "id-2" "Bo" 5 "#FFCC00" ];
       current := 0; passScreen := false; lastRoll := Some 5;
       popup := Some (popupFor win "NEW GAME" continue);
       timers := [ GameTimer.mk "t-1" "SNAP: Amy" 600500 ];
       winnerName := Some "Amy"; animating := false |}.

(** The two players of the sample games have entered the game, Amy has
    dismissed the pass screen. *)
Definition amy_to_roll : World :=
  mkWorld (Available ∅)
    {| phase := playing; board := buildBoard;
       players := [ Player.mk "id-1" "Amy" 0 "#FF3B30";
                    Player.mk "id-2" "Bo" 0 "#FFCC00" ];
       current := 0; passScreen := false; lastRoll := None; popup := None;
       timers := []; winnerName := None; animating := false |}.

(** The last roll of the winning game has taken Amy's token to cell 34; the
    landing is still to be resolved. *)
Definition amy_on_34 : GameState :=
  {| phase := playing; board := buildBoard;
     players := [ Player.mk "id-1" "Amy" 34 "#FF3B30";
                  Player.mk "id-2" "Bo" 5 "#FFCC00" ];
     current := 0; passScreen := false; lastRoll := Some 5; popup := None;
     timers := [ GameTimer.mk "t-1" "SNAP: Amy" 600500 ];
     winnerName := None; animating := true |}.

(** The winning game up to Amy's last turn: she stands on cell 29 and has
    dismissed the pass screen. *)
Definition last_turn : list Event :=
  [ AddPlayer "Amy" "id-1" 0; AddPlayer "Bo" "id-2" 1; StartGame ]
  ++ turn 5 100 ++ turn 0 200 ++ turn 4 300 ++ turn 0 400 ++ turn 5 500
  ++ turn 0 600 ++ turn 5 700 ++ turn 0 800 ++ turn 5 900 ++ turn 0 1000
  ++ [ Ready ].

Definition amy_on_29 : World :=
  mkWorld (Available ∅)
    {| phase := playing; board := buildBoard;
       players := [ Player.mk "id-1" "Amy" 29 "#FF3B30";
                    Player.mk "id-2" "Bo" 5 "#FFCC00" ];
       current := 0; passScreen := false; lastRoll := None; popup := None;
       timers := [ GameTimer.mk "t-1" "SNAP: Amy" 600500 ];
       winnerName := None; animating := false |}.

(** Amy has won, and the token of a second roll, begun while the first was
    still moving, has then taken her back to cell 30. *)
Definition winner_moved : World :=
  mkWorld (Available ∅)
    {| phase := finished; board := buildBoard;
       players := [ Player.mk "id-1" "Amy" 30 "#FF3B30";
                    Player.mk "id-2" "Bo" 5 "#FFCC00" ];
       current := 0; passScreen := false; lastRoll := Some 1;
       popup := Some (popupFor win "NEW GAME" continue);
       timers := [ GameTimer.mk "t-1" "SNAP: Amy" 600500 ];
       winnerName := Some "Amy"; animating := false |}.

(** BACK TO LOBBY was pressed while Amy's token was moving: the landing has
    been resolved in the lobby. *)
Definition lobby_with_popup : World :=
  mkWorld (Available ∅)
    {| phase := lobby; board := buildBoard;
       players := [ Player.mk "id-1" "Amy" 1 "#FF3B30";
                    Player.mk "id-2" "Bo" 0 "#FFCC00" ];
       current := 0; passScreen := false; lastRoll := Some 1;
       popup := Some (popupFor safe "CONTINUE" continue);
       timers := []; winnerName := None; animating := false |}.

(** * Properties *)

(** ** Arrays *)

Lemma arr_get_Some {A} (a : list A) (i : Z) (x : A) :
  arr_get a i = Some x ↔ 0 ≤ i ∧ a !! Z.to_nat i = Some x.
Proof.
  unfold arr_get. case_bool_decide; [|intuition lia].
  split; [done|]. intros [? _]. lia.
Qed.

Lemma arr_get_lt {A} (a : list A) (i : Z) :
  0 ≤ i < Z.of_nat (length a) → is_Some (arr_get a i).
Proof.
  intros Hi. unfold arr_get. rewrite bool_decide_eq_false_2 by lia.
  apply lookup_lt_is_Some. lia.
Qed.

Lemma arr_get_bounds {A} (a : list A) (i : Z) (x : A) :
  arr_get a i = Some x → 0 ≤ i < Z.of_nat (length a).
Proof.
  intros [? Hx]%arr_get_Some. apply lookup_lt_Some in Hx. lia.
Qed.

Lemma arr_get_set_eq {A} (a : list A) (i : Z) (x y : A) :
  arr_get a i = Some x → arr_get (arr_set a i y) i = Some y.
Proof.
  intros [? Hx]%arr_get_Some. unfold arr_get, arr_set.
  rewrite !bool_decide_eq_false_2 by lia.
  apply list_lookup_insert_eq. by eapply lookup_lt_Some.
Qed.

Lemma arr_set_set {A} (a : list A) (i : Z) (x y : A) :
  arr_set (arr_set a i x) i y = arr_set a i y.
Proof.
  unfold arr_set. case_bool_decide; [done|]. apply list_insert_insert_eq.
Qed.

Lemma arr_set_id {A} (a : list A) (i : Z) (x : A) :
  arr_get a i = Some x → arr_set a i x = a.
Proof.
  intros [? Hx]%arr_get_Some. unfold arr_set.
  rewrite bool_decide_eq_false_2 by lia. by apply list_insert_id.
Qed.

Lemma length_arr_set {A} (a : list A) (i : Z) (x : A) :
  length (arr_set a i x) = length a.
Proof. unfold arr_set. case_bool_decide; [done|]. apply length_insert. Qed.

(** ** Movement *)

Lemma upto_last (lo hi : Z) : lo ≤ hi → last (upto lo hi) = Some hi.
Proof.
  intros Hle. unfold upto. rewrite last_lookup, length_seqZ.
  rewrite lookup_seqZ. split; lia.
Qed.

Lemma upto_empty (lo hi : Z) : hi < lo → upto lo hi = [].
Proof. intros. unfold upto. apply seqZ_nil. lia. Qed.

(** Where the token stands at the end of the path: the roll added to the
    position, reflected at the last cell. *)
Lemma movePath_last (start steps : Z) :
  start ≤ WIN_INDEX → 1 ≤ steps →
  last (movePath start steps)
  = Some (if bool_decide (start + steps ≤ WIN_INDEX) then start + steps
          else WIN_INDEX - (start + steps - WIN_INDEX)).
Proof.
  intros Hs Hd. unfold movePath. case_bool_decide.
  - apply upto_last. lia.
  - rewrite last_app, fmap_last, upto_last by lia. done.
Qed.

Lemma with_pos_same (me : Player.t) : Player.with_pos (Player.pos me) me = me.
Proof. by destruct me. Qed.

Lemma with_pos_with_pos (a b : Z) (me : Player.t) :
  Player.with_pos a (Player.with_pos b me) = Player.with_pos a me.
Proof. done. Qed.

(** Walking a path leaves the current player on its last cell and touches
    nothing but that player's position and [lastRoll]. *)
Lemma walk_last (steps : Z) (path : list Z) (s : GameState) (me : Player.t)
    (dest : Z) :
  arr_get (players s) (current s) = Some me →
  last path = Some dest →
  walk steps path s
  = Some {| phase := phase s; board := board s;
            players := arr_set (players s) (current s) (Player.with_pos dest me);
            current := current s; passScreen := passScreen s;
            lastRoll := Some steps; popup := popup s; timers := timers s;
            winnerName := winnerName s; animating := animating s |}.
Proof.
  revert s me. induction path as [|pos rest IH]; intros s me Hme Hlast; [done|].
  cbn [walk]. unfold stepTo at 1. rewrite Hme. cbn [mbind option_bind].
  destruct rest as [|pos' rest'].
  - cbn in Hlast. injection Hlast as ->. done.
  - rewrite last_cons_cons in Hlast.
    erewrite IH; [|cbn; by eapply arr_get_set_eq|done].
    cbn. by rewrite arr_set_set.
Qed.

(** The state after the movement part of a roll. *)
Lemma moveToken_spec (steps : Z) (s : GameState) (me : Player.t) :
  arr_get (players s) (current s) = Some me →
  Player.pos me ≤ WIN_INDEX → 1 ≤ steps →
  moveToken steps s
  = Some {| phase := phase s; board := board s;
            players :=
              arr_set (players s) (current s)
                (Player.with_pos
                   (if bool_decide (Player.pos me + steps ≤ WIN_INDEX)
                    then Player.pos me + steps
                    else WIN_INDEX - (Player.pos me + steps - WIN_INDEX)) me);
            current := current s; passScreen := passScreen s;
            lastRoll := Some steps; popup := popup s; timers := timers s;
            winnerName := winnerName s; animating := true |}.
Proof.
  intros Hme Hp Hd. unfold moveToken. rewrite Hme. cbn [mbind option_bind].
  erewrite walk_last; [done|exact Hme|by apply movePath_last].
Qed.

(** C1.  A player on cell [p] in 0..34 who rolls [steps] in 1..6 is moved to
    [p + steps] when that is at most 34, and otherwise to
    [34 - ((p + steps) - 34)] (never below 0); the cell reached is within
    0..34.  This is the token's place when the movement is over, before the
    landing is resolved; only the current player's position, [lastRoll] and
    [animating] differ from the state before. *)
Theorem roll_moves_to_reflected_target (s : GameState) (me : Player.t)
    (steps : Z) :
  arr_get (players s) (current s) = Some me →
  0 ≤ Player.pos me ≤ 34 →
  1 ≤ steps ≤ 6 →
  let p := Player.pos me in
  let target :=
    if bool_decide (p + steps ≤ 34) then p + steps
    else Z.max 0 (34 - ((p + steps) - 34)) in
  0 ≤ target ≤ 34
  ∧ moveToken steps s
    = Some {| phase := phase s; board := board s;
              players :=
                arr_set (players s) (current s) (Player.with_pos target me);
              current := current s; passScreen := passScreen s;
              lastRoll := Some steps; popup := popup s; timers := timers s;
              winnerName := winnerName s; animating := true |}
  ∧ ∀ s', moveToken steps s = Some s' →
          Player.pos <$> arr_get (players s') (current s') = Some target.
Proof.
  intros Hme Hp Hd p target.
  assert (Htarget : target
      = if bool_decide (p + steps ≤ WIN_INDEX) then p + steps
        else WIN_INDEX - (p + steps - WIN_INDEX)).
  { subst target. change WIN_INDEX with 34. case_bool_decide; lia. }
  assert (Hmove := moveToken_spec steps s me Hme).
  change WIN_INDEX with 34 in Hmove, Htarget.
  fold p in Hmove. rewrite <- Htarget in Hmove.
  split; [|split].
  - subst target. case_bool_decide; lia.
  - apply Hmove; lia.
  - intros s' Hs'. rewrite Hmove in Hs' by lia. injection Hs' as <-. cbn.
    by erewrite arr_get_set_eq.
Qed.

Lemma roll_moves_to_reflected_target_witness :
  moveToken 6 game_at_30
  = Some {| phase := playing; board := buildBoard;
            players := [ Player.mk "id-a" "A" 32 "#FF3B30";
                         Player.mk "id-b" "B" 4 "#FF9500";
                         Player.mk "id-c" "C" 11 "#FFCC00" ];
            current := 0; passScreen := false; lastRoll := Some 6;
            popup := None; timers := []; winnerName := None;
            animating := true |}.
Proof.
  refine (proj1 (proj2 (roll_moves_to_reflected_target game_at_30
                          (Player.mk "id-a" "A" 30 "#FF3B30") 6 _ _ _)));
    [reflexivity | simpl; lia | lia].
Defined.

(** ** Landing *)

Lemma resolveTile_popup s ps me t : popup (resolveTile s ps me t) = Some (tilePopup t).
Proof. by destruct t. Qed.

Lemma resolveTile_players s ps me t : players (resolveTile s ps me t) = ps.
Proof. by destruct t. Qed.

Lemma resolveTile_current s ps me t : current (resolveTile s ps me t) = current s.
Proof. by destruct t. Qed.

Lemma resolveTile_board s ps me t : board (resolveTile s ps me t) = board s.
Proof. by destruct t. Qed.

Lemma resolveTile_timers s ps me t : timers (resolveTile s ps me t) = timers s.
Proof. by destruct t. Qed.

Lemma resolveTile_animating s ps me t : animating (resolveTile s ps me t) = false.
Proof. by destruct t. Qed.

Lemma resolveTile_phase s ps me t :
  phase (resolveTile s ps me t) = if bool_decide (t = win) then finished else phase s.
Proof. by destruct t. Qed.

Lemma resolveTile_winnerName s ps me t :
  winnerName (resolveTile s ps me t)
  = if bool_decide (t = win) then Some (Player.name me) else winnerName s.
Proof. by destruct t. Qed.

Lemma resolveTile_record s ps me t :
  resolveTile s ps me t
  = {| phase := if bool_decide (t = win) then finished else phase s;
       board := board s; players := ps; current := current s;
       passScreen := passScreen s; lastRoll := lastRoll s;
       popup := Some (tilePopup t); timers := timers s;
       winnerName := if bool_decide (t = win) then Some (Player.name me)
                     else winnerName s;
       animating := false |}.
Proof. by destruct t. Qed.

Lemma buildBoard_length : length buildBoard = 35%nat.
Proof. reflexivity. Qed.

Lemma buildBoard_types :
  Tile.type <$> buildBoard
  = [ start; safe; sip3; path; sip5; path; sip2;
      sip3; dare; sip10; snap; sip3; back5; tiktok;
      safe; sip3; sip10; snap; sip3; sip5; chug10s;
      sip3; sip2; path; shotgun; sip5; chug10s; tiktok;
      sip5; safe; sip3; path; finish; finish; win ].
Proof. reflexivity. Qed.

Lemma arr_get_type (b : list Tile.t) (k : Z) (t : Tile.t) :
  arr_get b k = Some t → arr_get (Tile.type <$> b) k = Some (Tile.type t).
Proof.
  rewrite !arr_get_Some. intros [? Ht]. split; [done|].
  by rewrite list_lookup_fmap, Ht.
Qed.

(** The type of the cell at [k] on the built board, read off the table. *)
Lemma buildBoard_type_at (k : Z) (t : Tile.t) :
  arr_get buildBoard k = Some t →
  arr_get (Tile.type <$> buildBoard) k = Some (Tile.type t) ∧ 0 ≤ k < 35.
Proof.
  intros Hk. split; [by apply arr_get_type|].
  apply arr_get_bounds in Hk. rewrite buildBoard_length in Hk. lia.
Qed.

Lemma buildBoard_exact_win : exact_win_board buildBoard.
Proof.
  split; [reflexivity|]. intros k t Hk.
  apply buildBoard_type_at in Hk as [Hty Hk].
  rewrite buildBoard_types in Hty. apply arr_get_Some in Hty as [_ Hty].
  change WIN_INDEX with 34.
  assert (Hn : (Z.to_nat k < 35)%nat) by lia.
  assert (Hkn : k = Z.of_nat (Z.to_nat k)) by lia.
  revert Hty Hkn. generalize (Z.to_nat k) as n, (Tile.type t) as ty.
  intros n ty. clear Hk. revert Hn.
  do 35 (destruct n as [|n];
         [intros _ [= <-] ->; split; [try done; discriminate | try done; lia]|]).
  lia.
Qed.

Lemma resolveLanding_plain (s : GameState) (me : Player.t) (tile : Tile.t) :
  arr_get (players s) (current s) = Some me →
  arr_get (board s) (Player.pos me) = Some tile →
  Tile.type tile ≠ back5 →
  resolveLanding s = Some (resolveTile s (players s) me (Tile.type tile)).
Proof.
  intros Hme Htile Hty. unfold resolveLanding.
  rewrite Hme. cbn [mbind option_bind]. rewrite Htile. cbn [mbind option_bind].
  by rewrite bool_decide_eq_false_2.
Qed.

Lemma resolveLanding_back5 (s : GameState) (me : Player.t) (tile landed : Tile.t) :
  arr_get (players s) (current s) = Some me →
  arr_get (board s) (Player.pos me) = Some tile →
  Tile.type tile = back5 →
  arr_get (board s) (clamp (Player.pos me - 5) 0 WIN_INDEX) = Some landed →
  let me' := Player.with_pos (clamp (Player.pos me - 5) 0 WIN_INDEX) me in
  resolveLanding s
  = Some (resolveTile s (arr_set (players s) (current s) me') me'
            (Tile.type landed)).
Proof.
  intros Hme Htile Hty Hlanded me'. unfold resolveLanding.
  rewrite Hme. cbn [mbind option_bind]. rewrite Htile. cbn [mbind option_bind].
  rewrite bool_decide_eq_true_2 by done. cbn [Player.pos Player.with_pos].
  rewrite Hlanded. done.
Qed.

(** The landing updater, in whatever state it runs: the current player
    stays or goes five cells back, and the cell then occupied is resolved. *)
Lemma resolveLanding_frame (s s' : GameState) :
  resolveLanding s = Some s' →
  ∃ me dest t,
    arr_get (players s) (current s) = Some me
    ∧ (dest = Player.pos me ∨ dest = clamp (Player.pos me - 5) 0 WIN_INDEX)
    ∧ arr_get (board s) dest = Some t
    ∧ players s' = arr_set (players s) (current s) (Player.with_pos dest me)
    ∧ s' = resolveTile s (players s') (Player.with_pos dest me) (Tile.type t).
Proof.
  unfold resolveLanding.
  destruct (arr_get (players s) (current s)) as [me|] eqn:Hme; [|done].
  cbn [mbind option_bind].
  destruct (arr_get (board s) (Player.pos me)) as [tile|] eqn:Htile; [|done].
  cbn [mbind option_bind]. case_bool_decide.
  - cbn [Player.pos Player.with_pos].
    destruct (arr_get (board s) (clamp (Player.pos me - 5) 0 WIN_INDEX))
      as [landed|] eqn:Hlanded; [|done].
    cbn [mbind option_bind]. intros [= <-].
    exists me, (clamp (Player.pos me - 5) 0 WIN_INDEX), landed.
    rewrite resolveTile_players. by repeat split; [right|..].
  - intros [= <-]. exists me, (Player.pos me), tile.
    rewrite resolveTile_players, with_pos_same, arr_set_id by done.
    by repeat split; [left|..].
Qed.

Lemma exact_win_board_get (b : list Tile.t) (k : Z) :
  exact_win_board b → 0 ≤ k ≤ 34 →
  ∃ t, arr_get b k = Some t ∧ (Tile.type t = win ↔ k = 34).
Proof.
  intros [Hlen Hwin] Hk.
  destruct (arr_get_lt b k) as [t Ht]; [rewrite Hlen; lia|].
  exists t. split; [done|]. by apply Hwin.
Qed.

(** The whole roll on a board whose only win cell is the last one: the cell
    [dest] the player ends on, after the back-5 relocation if there is one,
    the cell's type and the state that results. *)
Lemma animateMove_outcome (s : GameState) (me : Player.t) (steps : Z) :
  exact_win_board (board s) →
  arr_get (players s) (current s) = Some me →
  0 ≤ Player.pos me ≤ 34 →
  1 ≤ steps ≤ 6 →
  ∃ dest t,
    0 ≤ dest ≤ 34
    ∧ (dest = 34 ↔ Player.pos me + steps = 34)
    ∧ arr_get (board s) dest = Some t
    ∧ (Tile.type t = win ↔ dest = 34)
    ∧ animateMove steps s
      = Some {| phase := if bool_decide (Tile.type t = win) then finished
                         else phase s;
                board := board s;
                players :=
                  arr_set (players s) (current s) (Player.with_pos dest me);
                current := current s; passScreen := passScreen s;
                lastRoll := Some steps; popup := Some (tilePopup (Tile.type t));
                timers := timers s;
                winnerName := if bool_decide (Tile.type t = win)
                              then Some (Player.name me) else winnerName s;
                animating := false |}.
Proof.
  intros Hboard Hme Hp Hd.
  assert (Hmove := moveToken_spec steps s me Hme).
  change WIN_INDEX with 34 in Hmove.
  set (target := if bool_decide (Player.pos me + steps ≤ 34)
                 then Player.pos me + steps
                 else 34 - (Player.pos me + steps - 34)) in Hmove.
  assert (Htarget : 0 ≤ target ≤ 34 ∧ (target = 34 ↔ Player.pos me + steps = 34)).
  { subst target. case_bool_decide; lia. }
  destruct Htarget as [Hrange Hexact].
  unfold animateMove. rewrite Hmove by lia. cbn [mbind option_bind].
  set (me1 := Player.with_pos target me).
  set (s1 := mkState _ _ _ _ _ _ _ _ _ _).
  assert (Hme1 : arr_get (players s1) (current s1) = Some me1)
    by (by eapply arr_get_set_eq).
  destruct (exact_win_board_get _ target Hboard Hrange) as (tile & Htile & Hwin).
  destruct (decide (Tile.type tile = back5)) as [Hback|Hplain].
  - assert (target ≠ 34) by (intros ?%Hwin; congruence).
    assert (Hrange' : 0 ≤ clamp (target - 5) 0 WIN_INDEX ≤ 29)
      by (unfold clamp; change WIN_INDEX with 34; lia).
    destruct (exact_win_board_get _ (clamp (target - 5) 0 WIN_INDEX) Hboard)
      as (landed & Hlanded & Hwin'); [lia|].
    exists (clamp (target - 5) 0 WIN_INDEX), landed.
    split; [lia|]. split; [lia|]. split; [done|]. split; [done|].
    erewrite (resolveLanding_back5 s1 me1 tile landed); [|done..].
    f_equal. rewrite (resolveTile_record s1). cbn. by rewrite arr_set_set.
  - exists target, tile.
    split; [done|]. split; [done|]. split; [done|]. split; [done|].
    erewrite (resolveLanding_plain s1 me1 tile); [|done..].
    f_equal. by rewrite (resolveTile_record s1).
Qed.

(** C2.  On a board whose only win cell is the last one, a roll (movement and
    landing together) that ends with the player on cell 34 sets the phase to
    [finished] and [winnerName] to that player's name, and it ends there
    exactly when position plus roll is 34.  Any other roll, an overshoot
    included, ends on a cell below 34 and leaves phase and [winnerName] as
    they were. *)
Theorem only_exact_landing_wins (s : GameState) (me : Player.t) (steps : Z) :
  exact_win_board (board s) →
  arr_get (players s) (current s) = Some me →
  0 ≤ Player.pos me ≤ 34 →
  1 ≤ steps ≤ 6 →
  ∃ s' me',
    animateMove steps s = Some s'
    ∧ arr_get (players s') (current s') = Some me'
    ∧ Player.name me' = Player.name me
    ∧ (Player.pos me' = 34 →
       phase s' = finished ∧ winnerName s' = Some (Player.name me)
       ∧ popup s' = Some (popupFor win "NEW GAME" continue))
    ∧ (Player.pos me + steps = 34 → Player.pos me' = 34)
    ∧ (Player.pos me + steps ≠ 34 →
       Player.pos me' < 34 ∧ phase s' = phase s ∧ winnerName s' = winnerName s).
Proof.
  intros Hboard Hme Hp Hd.
  destruct (animateMove_outcome s me steps Hboard Hme Hp Hd)
    as (dest & t & Hdest & Hexact & _ & Hwin & ->).
  eexists _, (Player.with_pos dest me). split; [done|]. cbn.
  split; [by eapply arr_get_set_eq|]. split; [done|].
  case_bool_decide as Hty.
  - rewrite Hty. apply Hwin in Hty. split; [done|]. split; [done|]. lia.
  - rewrite Hwin in Hty. split; [done|]. split; [lia|].
    intros _. split; [lia|done].
Qed.

Lemma only_exact_landing_wins_witness :
  ∃ s' me',
    animateMove 4 game_at_30 = Some s'
    ∧ arr_get (players s') (current s') = Some me'
    ∧ Player.name me' = "A"
    ∧ (Player.pos me' = 34 →
       phase s' = finished ∧ winnerName s' = Some "A"
       ∧ popup s' = Some (popupFor win "NEW GAME" continue))
    ∧ (30 + 4 = 34 → Player.pos me' = 34)
    ∧ (30 + 4 ≠ 34 →
       Player.pos me' < 34 ∧ phase s' = playing ∧ winnerName s' = None).
Proof.
  apply (only_exact_landing_wins game_at_30 (Player.mk "id-a" "A" 30 "#FF3B30") 4);
    [apply buildBoard_exact_win | reflexivity | simpl; lia | lia].
Defined.

(** The two rolls of the specification's examples: from 30 a six bounces to
    32, a finish cell, and the game goes on; from 30 a four wins. *)
Example overshoot_from_30 :
  animateMove 6 game_at_30
  = Some {| phase := playing; board := buildBoard;
            players := [ Player.mk "id-a" "A" 32 "#FF3B30";
                         Player.mk "id-b" "B" 4 "#FF9500";
                         Player.mk "id-c" "C" 11 "#FFCC00" ];
            current := 0; passScreen := false; lastRoll := Some 6;
            popup := Some (popupFor finish "CONTINUE" continue);
            timers := []; winnerName := None; animating := false |}.
Proof. reflexivity. Qed.

Example exact_from_30 :
  animateMove 4 game_at_30
  = Some {| phase := finished; board := buildBoard;
            players := [ Player.mk "id-a" "A" 34 "#FF3B30";
                         Player.mk "id-b" "B" 4 "#FF9500";
                         Player.mk "id-c" "C" 11 "#FFCC00" ];
            current := 0; passScreen := false; lastRoll := Some 4;
            popup := Some (popupFor win "NEW GAME" continue);
            timers := []; winnerName := Some "A"; animating := false |}.
Proof. reflexivity. Qed.

(** ** Back 5 *)



(** A remark on boards the page never builds.  The relocation is written
    once, outside [resolveTile]: were there [back5] cells on 17 and on 12, a
    landing on 17 would leave the player on 12 with the back-5 popup, where
    a landing on 12 itself leads to cell 7.  [buildBoard] puts its only
    [back5] cell on 12, and the board of a game is never changed, so no game
    of the page meets this case. *)
Lemma back5_chain_not_followed :
  spec_chain_end 35 chained_board 17 = Some 7
  ∧ (Tile.type <$> arr_get chained_board 7) = Some sip3
  ∧ resolveLanding game_on_17
    = Some {| phase := playing; board := chained_board;
              players := [ Player.mk "id-a" "A" 12 "#FF3B30";
                           Player.mk "id-b" "B" 4 "#FF9500" ];
              current := 0; passScreen := false; lastRoll := Some 3;
              popup := Some (popupFor back5 "CONTINUE" continue);
              timers := []; winnerName := None; animating := false |}
  ∧ animateMove 3 game_on_14 = resolveLanding game_on_17.
Proof. by vm_compute. Qed.



(** ** Timers *)

(** C4, as stated, fails: during play the periodic sweep drops a timer whose
    end has passed, with no [clearTimer] involved. *)
Lemma sweep_drops_expired_timer :
  timers game_with_expired_timer = [ GameTimer.mk "t-1" "SNAP: A" 600000 ]
  ∧ timers (sweepEffect 600000 game_with_expired_timer) = [].
Proof. split; reflexivity. Qed.

(** C4, amended.  While the phase is [playing] the sweep, run every five
    seconds, keeps exactly the timers that end after the time of the sweep
    and drops the others; in the other phases no sweep runs and every timer,
    expired or not, stays.  [clearTimer] drops exactly the timers with the
    given id, whatever their end. *)
Theorem sweep_keeps_exactly_running_timers (now : Z) (id : string)
    (s : GameState) (t : GameTimer.t) :
  (t ∈ timers (sweepEffect now s)
   ↔ t ∈ timers s ∧ (phase s = playing → now < GameTimer.endsAt t))
  ∧ (t ∈ timers (clearTimer id s) ↔ t ∈ timers s ∧ GameTimer.id t ≠ id).
Proof.
  split.
  - unfold sweepEffect, sweepTick. case_bool_decide as Hph; cbn.
    + intuition.
    + rewrite list_elem_of_filter. intuition lia.
  - unfold clearTimer. cbn. rewrite list_elem_of_filter. intuition.
Qed.

(** ** Lobby *)

(** C8, as stated, fails: BACK TO LOBBY leaves the players where they stand
    (here on 30, 4 and 11), it does not put them back on cell 0. *)
Lemma backToLobby_keeps_positions :
  Player.pos <$> players (state (backToLobby (mkWorld (Available ∅) game_at_30)))
  = [30; 4; 11].
Proof. reflexivity. Qed.

(** C8, amended.  BACK TO LOBBY sets the phase to [lobby], drops the pass
    screen, the popup and the winner's name, removes the saved snapshot and
    keeps everything else, the roster with every player's position
    included; the reset ([newGame]) removes the saved snapshot and replaces
    the session by the initial one, which has no players.  The two results
    differ whenever there is a player. *)
Theorem backToLobby_versus_newGame (w : World) :
  players (state w) ≠ [] →
  backToLobby w
  = mkWorld (clearSaved (storage w))
      {| phase := lobby; board := board (state w);
         players := players (state w); current := current (state w);
         passScreen := false; lastRoll := lastRoll (state w); popup := None;
         timers := timers (state w); winnerName := None;
         animating := animating (state w) |}
  ∧ newGame w = mkWorld (clearSaved (storage w)) initialState
  ∧ players (state (newGame w)) = []
  ∧ phase (state (backToLobby w)) = phase (state (newGame w))
  ∧ backToLobby w ≠ newGame w.
Proof.
  intros Hne. repeat split.
  intros Heq. apply (f_equal (λ w, players (state w))) in Heq. done.
Qed.

Lemma backToLobby_versus_newGame_witness :
  backToLobby (mkWorld (Available ∅) game_at_30)
  ≠ newGame (mkWorld (Available ∅) game_at_30).
Proof.
  refine (proj2 (proj2 (proj2 (proj2
    (backToLobby_versus_newGame (mkWorld (Available ∅) game_at_30) _))))).
  discriminate.
Defined.

Lemma pickPlayerColor_in_palette (rnd : nat) (used : gset string) :
  pickPlayerColor rnd used ∈ PLAYER_COLORS.
Proof.
  unfold pickPlayerColor.
  set (available := filter _ PLAYER_COLORS).
  assert (Hpool : ∀ pool : list string,
             pool ≠ [] → pool ⊆ PLAYER_COLORS →
             nth (rnd mod length pool)%nat pool "" ∈ PLAYER_COLORS).
  { intros pool Hne Hsub. apply Hsub, list_elem_of_In, nth_In.
    apply Nat.mod_upper_bound. by destruct pool. }
  case_bool_decide as Hav.
  - by apply Hpool.
  - apply Hpool; [done|]. intros c Hc. subst available.
    by apply list_elem_of_filter in Hc as [_ ?].
Qed.

(** C7.  Whatever the host's [trim] and [toLowerCase] are, [addPlayer]
    leaves the session as it is when nothing is left of the name after
    trimming (the name is empty or white space only), when the roster holds
    16 players or more, or when a player has the trimmed name up to case;
    otherwise it appends one player to the roster, with the trimmed name, on
    cell 0 and with a colour of the palette, and changes nothing else. *)
Theorem addPlayer_rejects_or_appends {host : HostStrings}
    (nameRaw uuid : string) (rnd : nat) (s : GameState) :
  let name := trim nameRaw in
  let rejected :=
    name = ""
    ∨ (16 ≤ length (players s))%nat
    ∨ ∃ p, p ∈ players s ∧ toLowerCase (Player.name p) = toLowerCase name in
  (rejected → addPlayer nameRaw uuid rnd s = s)
  ∧ (¬ rejected →
     ∃ color,
       color ∈ PLAYER_COLORS
       ∧ addPlayer nameRaw uuid rnd s
         = with_players (players s ++ [Player.mk uuid name 0 color]) s).
Proof.
  intros name rejected.
  unfold addPlayer. fold name.
  destruct (existsb _ (players s)) eqn:Hdup.
  - split; [intros _; by repeat case_bool_decide|].
    intros Hrej. exfalso. apply Hrej. right. right.
    apply existsb_exists in Hdup as (p & Hp & Heq).
    exists p. split; [by apply list_elem_of_In|]. by apply bool_decide_eq_true in Heq.
  - split.
    + intros [Hempty | [Hfull | (p & Hp & Heq)]].
      * by rewrite bool_decide_eq_true_2.
      * case_bool_decide; [done|].
        rewrite bool_decide_eq_true_2; [done|]. unfold MAX_PLAYERS. lia.
      * exfalso. apply not_true_iff_false in Hdup. apply Hdup.
        apply existsb_exists. exists p.
        split; [by apply list_elem_of_In|]. by apply bool_decide_eq_true.
    + intros Hrej. eexists. split; [apply pickPlayerColor_in_palette|].
      rewrite bool_decide_eq_false_2 by (intros ?; apply Hrej; by left).
      rewrite bool_decide_eq_false_2; [done|].
      unfold MAX_PLAYERS. intros ?. apply Hrej. right. left. lia.
Qed.

(** With the ASCII host: " amy " is refused after Amy, " Bo " is added as
    Bo. *)
Lemma addPlayer_rejects_or_appends_witness :
  addPlayer (host := ascii_host) " amy " "id-2" 7 lobby_with_Amy = lobby_with_Amy
  ∧ ∃ color,
      color ∈ PLAYER_COLORS
      ∧ addPlayer (host := ascii_host) " Bo " "id-2" 7 lobby_with_Amy
        = with_players [ Player.mk "id-1" "Amy" 0 "#FF3B30";
                         Player.mk "id-2" "Bo" 0 color ] initialState.
Proof.
  split.
  - apply (addPlayer_rejects_or_appends (host := ascii_host)
             " amy " "id-2" 7 lobby_with_Amy).
    right. right. exists (Player.mk "id-1" "Amy" 0 "#FF3B30").
    split; [by apply list_elem_of_here | reflexivity].
  - apply (addPlayer_rejects_or_appends (host := ascii_host)
             " Bo " "id-2" 7 lobby_with_Amy).
    intros [Hempty | [Hfull | (p & Hp & Heq)]].
    + vm_compute in Hempty. discriminate.
    + simpl in Hfull. lia.
    + apply list_elem_of_singleton in Hp as ->. vm_compute in Heq. discriminate.
Defined.

(** *** The ASCII host *)

Lemma trimStart_blank (s : string) : blank s = true → trimStart s = "".
Proof.
  induction s as [|c r IH]; [done|]. cbn.
  intros [Hc Hr]%andb_prop. rewrite Hc. auto.
Qed.

Lemma trimStart_not_blank (s : string) :
  blank s = false → ∃ c r, trimStart s = String c r ∧ is_space c = false.
Proof.
  induction s as [|c r IH]; [done|]. cbn.
  destruct (is_space c) eqn:Hc; cbn; [auto|]. intros _. by exists c, r.
Qed.

Lemma trimEnd_keeps_head (c : Ascii.ascii) (r : string) :
  is_space c = false → trimEnd (String c r) ≠ "".
Proof. intros Hc. cbn. rewrite Hc. by destruct (trimEnd r). Qed.

(** [ascii_trim] leaves nothing exactly of the strings made of its white
    space. *)
Lemma ascii_trim_empty_iff (s : string) : ascii_trim s = "" ↔ blank s = true.
Proof.
  unfold ascii_trim. split.
  - intros Hempty. destruct (blank s) eqn:Hb; [done|].
    destruct (trimStart_not_blank s Hb) as (c & r & Hs & Hc).
    rewrite Hs in Hempty. by apply trimEnd_keeps_head in Hempty.
  - intros Hb. by rewrite trimStart_blank.
Qed.

Example full_lobby_has_16 : length (players full_lobby) = 16%nat.
Proof. by vm_compute. Qed.

Example seventeenth_rejected :
  addPlayer (host := ascii_host) "Zed" "id-17" 3 full_lobby = full_lobby.
Proof. by vm_compute. Qed.

Example Amy_after_amy :
  addPlayer (host := ascii_host) "Amy" "id-2" 5
    (with_players [ Player.mk "id-1" "amy" 0 "#FF3B30" ] initialState)
  = with_players [ Player.mk "id-1" "amy" 0 "#FF3B30" ] initialState.
Proof. by vm_compute. Qed.

Example first_player_added :
  addPlayer (host := ascii_host) "  Amy " "id-1" 0 initialState = lobby_with_Amy.
Proof. by vm_compute. Qed.

(** ** Acknowledging a popup *)

Lemma advanceTurn_spec (s : GameState) :
  players s ≠ [] → 0 ≤ current s →
  advanceTurn s
  = Some {| phase := phase s; board := board s; players := players s;
            current := (current s + 1) `mod` Z.of_nat (length (players s));
            passScreen := true; lastRoll := None; popup := None;
            timers := timers s; winnerName := winnerName s;
            animating := animating s |}.
Proof.
  intros Hne Hcur. unfold advanceTurn. rewrite bool_decide_eq_false_2 by done.
  rewrite Z.rem_mod_nonneg; [done|lia|]. destruct (players s); [done|cbn; lia].
Qed.

(** What pressing the popup's button does while the game is not finished:
    the timer of the popup's action, if any, is put in front of the timers
    and the turn passes on. *)
Lemma handlePopupPress_playing (now : Z) (uuid : string) (w : World)
    (p : Popup.t) (me : Player.t) :
  popup (state w) = Some p →
  phase (state w) ≠ finished →
  arr_get (players (state w)) (current (state w)) = Some me →
  let s := state w in
  let started :=
    match Popup.action p with
    | continue => []
    | startSnapTimer =>
        [ GameTimer.mk uuid ("SNAP: " +:+ Player.name me) (now + 600000) ]
    | startTikTokTimer =>
        [ GameTimer.mk uuid ("TIKTOK: " +:+ Player.name me) (now + 3600000) ]
    end in
  handlePopupPress now uuid w
  = Some (mkWorld (storage w)
            {| phase := phase s; board := board s; players := players s;
               current := (current s + 1) `mod` Z.of_nat (length (players s));
               passScreen := true; lastRoll := None; popup := None;
               timers := started ++ timers s; winnerName := winnerName s;
               animating := animating s |}).
Proof.
  intros Hpop Hph Hme.
  assert (Hcur : 0 ≤ current (state w)) by (apply arr_get_bounds in Hme; lia).
  assert (Hne : players (state w) ≠ []).
  { intros Hnil. apply arr_get_bounds in Hme. rewrite Hnil in Hme. cbn in Hme. lia. }
  intros s started. unfold handlePopupPress. rewrite Hpop.
  rewrite bool_decide_eq_false_2 by done.
  subst started. unfold lift, addSnapTimer, addTikTokTimer.
  subst s.
  destruct (Popup.action p); rewrite ?Hme; cbn [mbind option_bind];
    (rewrite advanceTurn_spec by done); done.
Qed.

(** C6.  When a popup is confirmed while the game is not finished, with at
    least two players and a valid current index, the current index becomes
    (old index + 1) mod the number of players, the popup is cleared and the
    pass screen for the next player is up; roster, phase and board are as
    before. *)
Theorem confirm_advances_turn (now : Z) (uuid : string) (w : World)
    (p : Popup.t) :
  popup (state w) = Some p →
  phase (state w) ≠ finished →
  (2 ≤ length (players (state w)))%nat →
  0 ≤ current (state w) < Z.of_nat (length (players (state w))) →
  ∃ w',
    handlePopupPress now uuid w = Some w'
    ∧ current (state w')
      = (current (state w) + 1) `mod` Z.of_nat (length (players (state w)))
    ∧ popup (state w') = None
    ∧ passScreen (state w') = true
    ∧ players (state w') = players (state w)
    ∧ phase (state w') = phase (state w)
    ∧ board (state w') = board (state w).
Proof.
  intros Hpop Hph Hcount Hcur.
  destruct (arr_get_lt (players (state w)) (current (state w)) Hcur) as [me Hme].
  eexists. split; [by eapply handlePopupPress_playing|]. done.
Qed.

Lemma confirm_advances_turn_witness :
  ∃ w',
    handlePopupPress 1000 "t-1" (game_with_popup (tilePopup dare)) = Some w'
    ∧ current (state w') = 0
    ∧ popup (state w') = None
    ∧ passScreen (state w') = true
    ∧ players (state w') = three_players
    ∧ phase (state w') = playing
    ∧ board (state w') = buildBoard.
Proof.
  apply (confirm_advances_turn 1000 "t-1" (game_with_popup (tilePopup dare))
           (tilePopup dare));
    [reflexivity | discriminate | simpl; lia | simpl; lia].
Defined.

(** C5.  Confirming a popup whose action starts a timer, while the game is
    not finished and the current index points at a player, adds exactly one
    timer, put in front of the others, that ends 600000 ms after now for the
    snap action and 3600000 ms after now for the tiktok action, and passes
    the turn to the next player: the current index advances by one modulo
    the number of players, the popup is cleared and the pass screen is up.
    These two conditions are what a landing leaves: the landing updater puts
    a timer popup up only with a player under the current index, and it
    leaves a game that was not finished unfinished when it does. *)
Theorem timer_popup_adds_timer_and_passes_turn (now : Z) (uuid : string) :
  (∀ (w : World) (p : Popup.t) (me : Player.t),
     popup (state w) = Some p →
     Popup.action p = startSnapTimer ∨ Popup.action p = startTikTokTimer →
     phase (state w) ≠ finished →
     arr_get (players (state w)) (current (state w)) = Some me →
     let timer :=
       if bool_decide (Popup.action p = startSnapTimer)
       then GameTimer.mk uuid ("SNAP: " +:+ Player.name me) (now + 600000)
       else GameTimer.mk uuid ("TIKTOK: " +:+ Player.name me) (now + 3600000) in
     handlePopupPress now uuid w
     = Some (mkWorld (storage w)
               {| phase := phase (state w); board := board (state w);
                  players := players (state w);
                  current := (current (state w) + 1)
                             `mod` Z.of_nat (length (players (state w)));
                  passScreen := true; lastRoll := None; popup := None;
                  timers := timer :: timers (state w);
                  winnerName := winnerName (state w);
                  animating := animating (state w) |}))
  ∧ (∀ (s s' : GameState) (p : Popup.t),
       resolveLanding s = Some s' →
       phase s ≠ finished →
       popup s' = Some p →
       Popup.action p = startSnapTimer ∨ Popup.action p = startTikTokTimer →
       phase s' ≠ finished
       ∧ is_Some (arr_get (players s') (current s'))).
Proof.
  split.
  - intros w p me Hpop Hact Hfin Hme timer. subst timer.
    rewrite (handlePopupPress_playing now uuid w p me Hpop Hfin Hme).
    by destruct Hact as [-> | ->].
  - intros s s' p (me & dest & t & Hme & _ & _ & Hps & Hs')%resolveLanding_frame
      Hfin Hpop Hact.
    rewrite Hs', resolveTile_popup in Hpop. injection Hpop as <-.
    rewrite Hs', resolveTile_phase, resolveTile_players, resolveTile_current.
    split.
    + case_bool_decide as Hty; [|done]. rewrite Hty in Hact. by destruct Hact.
    + rewrite Hps. exists (Player.with_pos dest me). by eapply arr_get_set_eq.
Qed.

Lemma timer_popup_adds_timer_and_passes_turn_witness :
  handlePopupPress 3000 "t-1" amy_on_snap
  = Some (mkWorld (Available ∅)
            {| phase := playing; board := buildBoard;
               players := [ Player.mk "id-1" "Amy" 10 "#FF3B30";
                            Player.mk "id-2" "Bo" 1 "#FFCC00" ];
               current := 1; passScreen := true; lastRoll := None;
               popup := None;
               timers := [ GameTimer.mk "t-1" "SNAP: Amy" 603000 ];
               winnerName := None; animating := false |}).
Proof.
  apply (proj1 (timer_popup_adds_timer_and_passes_turn 3000 "t-1") amy_on_snap
           (popupFor snap "START 10:00 TIMER" startSnapTimer)
           (Player.mk "id-1" "Amy" 10 "#FF3B30"));
    [reflexivity | left; reflexivity | discriminate | reflexivity].
Defined.

(** ** New game *)

(** C10.  With the phase [finished], pressing the popup's button removes the
    saved snapshot and replaces the session by the initial one: phase
    [lobby], no players, no timers, no popup and the built board.  Nothing
    of the session before, its roster included, is kept, and a load of the
    saved snapshot finds none. *)
Theorem finished_popup_starts_new_game (now : Z) (uuid : string) (w : World)
    (p : Popup.t) :
  popup (state w) = Some p →
  phase (state w) = finished →
  ∃ w',
    handlePopupPress now uuid w = Some w'
    ∧ storage w' = clearSaved (storage w)
    ∧ (getItem (storage w') KEY = None ∨ getItem (storage w') KEY = Some None)
    ∧ (∀ parse, loadState parse (storage w') = None)
    ∧ state w' = initialState
    ∧ phase (state w') = lobby
    ∧ players (state w') = []
    ∧ timers (state w') = []
    ∧ popup (state w') = None
    ∧ board (state w') = buildBoard.
Proof.
  intros Hpop Hph. exists (newGame w). unfold handlePopupPress.
  rewrite Hpop, bool_decide_eq_true_2 by done.
  assert (Hgone : getItem (clearSaved (storage w)) KEY = None
                  ∨ getItem (clearSaved (storage w)) KEY = Some None).
  { destruct (storage w); cbn; [by left|right]. by rewrite lookup_delete_eq. }
  split; [done|]. split; [done|]. split; [exact Hgone|]. split; [|done].
  intros parse. unfold loadState. cbn. by destruct Hgone as [-> | ->].
Qed.

Lemma finished_popup_starts_new_game_witness :
  ∃ w',
    handlePopupPress 5000 "t-2" won_game = Some w'
    ∧ storage w' = clearSaved (storage won_game)
    ∧ (getItem (storage w') KEY = None ∨ getItem (storage w') KEY = Some None)
    ∧ (∀ parse, loadState parse (storage w') = None)
    ∧ state w' = initialState
    ∧ phase (state w') = lobby
    ∧ players (state w') = []
    ∧ timers (state w') = []
    ∧ popup (state w') = None
    ∧ board (state w') = buildBoard.
Proof.
  apply (finished_popup_starts_new_game 5000 "t-2" won_game
           (popupFor win "NEW GAME" continue)); reflexivity.
Defined.

(** ** Loading the saved snapshot *)

Lemma falsy_false (x : option JsValue) :
  falsy x = false ↔ ∃ v, x = Some v ∧ truthy v = true.
Proof.
  destruct x as [v|]; cbn.
  - rewrite negb_false_iff. split; [by exists v|]. by intros (? & [= <-] & ?).
  - split; [done|]. by intros (? & ? & _).
Qed.

(** [loadState] yields a value exactly when the key holds a non-empty
    string that parses to a value with truthy [board] and [players]. *)
Lemma loadState_Some (JSON_parse : string → option JsValue) (st : Storage)
    (v : JsValue) :
  loadState JSON_parse st = Some v
  ↔ ∃ raw b p,
      getItem st KEY = Some (Some raw) ∧ raw ≠ ""
      ∧ JSON_parse raw = Some v
      ∧ get_field "board" v = Some b ∧ truthy b = true
      ∧ get_field "players" v = Some p ∧ truthy p = true.
Proof.
  unfold loadState. split.
  - destruct (getItem st KEY) as [[raw|]|]; [|done..].
    case_bool_decide as Hraw; [done|].
    destruct (JSON_parse raw) as [parsed|] eqn:Hparse; [|done].
    destruct (_ || _) eqn:Hguard; [done|]. intros [= <-].
    apply orb_false_elim in Hguard as [[_ Hb]%orb_false_elim Hp].
    apply falsy_false in Hb as (b & Hb & ?), Hp as (p & Hp & ?).
    by exists raw, b, p.
  - intros (raw & b & p & -> & Hraw & -> & Hb & Htb & Hp & Htp).
    rewrite bool_decide_eq_false_2 by done. rewrite Hb, Hp. cbn.
    rewrite Htb, Htp. cbn. destruct v; try done.
Qed.

(** C9.  [loadState] is total: it returns [null] (here [None]) when the
    store cannot be read, when the key is absent or holds the empty string,
    when the stored string does not parse, and when the parsed value lacks
    the [board] or the [players] field; when it returns a value, that value
    is the parse of the stored string and has both fields. *)
Theorem loadState_null_unless_both_fields
    (JSON_parse : string → option JsValue) (st : Storage) :
  (getItem st KEY = None ∨ getItem st KEY = Some None
   ∨ getItem st KEY = Some (Some "") →
   loadState JSON_parse st = None)
  ∧ (∀ raw, getItem st KEY = Some (Some raw) → JSON_parse raw = None →
            loadState JSON_parse st = None)
  ∧ (∀ raw parsed,
       getItem st KEY = Some (Some raw) → JSON_parse raw = Some parsed →
       get_field "board" parsed = None ∨ get_field "players" parsed = None →
       loadState JSON_parse st = None)
  ∧ (∀ v, loadState JSON_parse st = Some v →
          ∃ raw b p,
            getItem st KEY = Some (Some raw) ∧ JSON_parse raw = Some v
            ∧ get_field "board" v = Some b ∧ get_field "players" v = Some p).
Proof.
  repeat split.
  - unfold loadState. by intros [-> | [-> | ->]].
  - intros raw Hraw Hparse. unfold loadState. rewrite Hraw, Hparse.
    by case_bool_decide.
  - intros raw parsed Hraw Hparse Hlack. unfold loadState.
    rewrite Hraw, Hparse. case_bool_decide; [done|].
    destruct Hlack as [-> | ->]; cbn; by rewrite ?orb_true_r.
  - intros v (raw & b & p & ? & _ & ? & ? & _ & ? & _)%loadState_Some.
    by exists raw, b, p.
Qed.

Lemma loadState_null_unless_both_fields_witness :
  loadState three_text_parse (Available {[ KEY := "{}" ]}) = None.
Proof.
  refine (proj1 (proj2 (proj2
    (loadState_null_unless_both_fields three_text_parse
       (Available {[ KEY := "{}" ]}))))
    "{}" (JObj []) _ _ _);
    [reflexivity | reflexivity | left; reflexivity].
Defined.

Example loadState_unreadable_store : loadState three_text_parse Unavailable = None.
Proof. reflexivity. Qed.

Example loadState_garbage :
  loadState three_text_parse (Available {[ KEY := "{board" ]}) = None.
Proof. reflexivity. Qed.

(** * Further properties *)

(** ** The snake grid *)

Lemma cell_in_range (k : Z) : 0 ≤ k < 35 → k ∈ seqZ 0 35.
Proof. intros Hk. apply elem_of_seqZ. lia. Qed.

Lemma grid_table :
  Forall (λ k, Exists (λ g, gridTile g = k
                            ∧ Forall (λ g', gridTile g' = k → g' = g) (seqZ 0 35))
                      (seqZ 0 35))
         (seqZ 0 35).
Proof. compute_done. Qed.

(** X1.  The render loop draws every cell of the board in exactly one cell
    of the 7 x 5 grid: for each board index 0..34 there is one grid index
    0..34 that [boardIndexFromGridCell] maps to it, and no other. *)
Theorem grid_draws_each_cell_once (k : Z) :
  0 ≤ k < 35 →
  ∃ g, 0 ≤ g < 35 ∧ gridTile g = k
       ∧ ∀ g', 0 ≤ g' < 35 → gridTile g' = k → g' = g.
Proof.
  intros Hk.
  pose proof (proj1 (Forall_forall _ _) grid_table k (cell_in_range k Hk)) as Hex.
  apply Exists_exists in Hex as (g & Hg & Hgk & Huniq).
  apply elem_of_seqZ in Hg. exists g. split; [lia|]. split; [done|].
  intros g' Hg'. apply (proj1 (Forall_forall _ _) Huniq). by apply cell_in_range.
Qed.

Lemma grid_draws_each_cell_once_witness :
  ∃ g, 0 ≤ g < 35 ∧ gridTile g = 34
       ∧ ∀ g', 0 ≤ g' < 35 → gridTile g' = 34 → g' = g.
Proof. apply (grid_draws_each_cell_once 34). lia. Defined.

Lemma snake_table :
  Forall (λ g, Forall (λ g',
            gridTile g' = gridTile g + 1 →
            (g' `div` 7 = g `div` 7 ∧ Z.abs (g' `rem` 7 - g `rem` 7) = 1)
            ∨ (g' `rem` 7 = g `rem` 7 ∧ g' `div` 7 = g `div` 7 - 1))
          (seqZ 0 35))
         (seqZ 0 35).
Proof. compute_done. Qed.

(** X2.  The layout is a snake that climbs: the cell that follows a cell on
    the path is drawn next to it in the same grid row, or right above it in
    the same column; the start is drawn bottom left and the win cell top
    right. *)
Theorem next_cell_is_grid_neighbour (g g' : Z) :
  0 ≤ g < 35 → 0 ≤ g' < 35 →
  gridTile g' = gridTile g + 1 →
  ((g' `div` 7 = g `div` 7 ∧ Z.abs (g' `rem` 7 - g `rem` 7) = 1)
   ∨ (g' `rem` 7 = g `rem` 7 ∧ g' `div` 7 = g `div` 7 - 1))
  ∧ boardIndexFromGridCell 4 0 = 0
  ∧ boardIndexFromGridCell 0 6 = 34.
Proof.
  intros Hg Hg' Hnext. split; [|done].
  pose proof (proj1 (Forall_forall _ _) snake_table g (cell_in_range g Hg)) as Hrow.
  by apply (proj1 (Forall_forall _ _) Hrow g' (cell_in_range g' Hg')).
Qed.

Lemma next_cell_is_grid_neighbour_witness :
  ((21 `div` 7 = 22 `div` 7 ∧ Z.abs (21 `rem` 7 - 22 `rem` 7) = 1)
   ∨ (21 `rem` 7 = 22 `rem` 7 ∧ 21 `div` 7 = 22 `div` 7 - 1))
  ∧ boardIndexFromGridCell 4 0 = 0
  ∧ boardIndexFromGridCell 0 6 = 34.
Proof.
  apply (next_cell_is_grid_neighbour 22 21); [lia | lia | reflexivity].
Defined.

(** ** The path of the token *)

Lemma movePath_lookup (p d k : Z) :
  p ≤ WIN_INDEX → 0 ≤ k < d →
  movePath p d !! Z.to_nat k = Some (reflected p (k + 1)).
Proof.
  intros Hp Hk. unfold movePath, reflected, upto.
  case_bool_decide as Hfit.
  - rewrite bool_decide_eq_true_2 by lia.
    rewrite lookup_seqZ_lt by lia. f_equal. lia.
  - destruct (decide (p + (k + 1) ≤ WIN_INDEX)) as [Hin|Hout].
    + rewrite bool_decide_eq_true_2 by done.
      rewrite lookup_app_l by (rewrite length_seqZ; lia).
      rewrite lookup_seqZ_lt by lia. f_equal. lia.
    + rewrite bool_decide_eq_false_2 by done.
      rewrite lookup_app_r by (rewrite length_seqZ; lia).
      rewrite length_seqZ, list_lookup_fmap.
      rewrite lookup_seqZ_lt by lia. cbn. f_equal. lia.
Qed.

Lemma movePath_length (p d : Z) :
  p ≤ WIN_INDEX → 0 ≤ d → length (movePath p d) = Z.to_nat d.
Proof.
  intros Hp Hd. unfold movePath, upto. case_bool_decide.
  - rewrite length_seqZ. lia.
  - rewrite length_app, length_fmap, !length_seqZ. lia.
Qed.

(** X3.  The token of a player on cell [p] in 0..34 who rolls [d] in 1..6
    makes exactly [d] moves; the k-th move ends where a roll of k would have
    ended, one cell away from where the move began, and never off the
    board. *)
Theorem path_moves_one_cell_at_a_time (p d : Z) :
  0 ≤ p ≤ 34 → 1 ≤ d ≤ 6 →
  length (movePath p d) = Z.to_nat d
  ∧ reflected p 0 = p
  ∧ ∀ k, 0 ≤ k < d →
      movePath p d !! Z.to_nat k = Some (reflected p (k + 1))
      ∧ Z.abs (reflected p (k + 1) - reflected p k) = 1
      ∧ 0 ≤ reflected p (k + 1) ≤ 34.
Proof.
  intros Hp Hd. change 34 with WIN_INDEX in Hp.
  split; [apply movePath_length; lia|].
  split; [unfold reflected; by rewrite Z.add_0_r, bool_decide_eq_true_2 by lia|].
  intros k Hk. split; [apply movePath_lookup; lia|].
  unfold reflected. change WIN_INDEX with 34 in *.
  repeat case_bool_decide; lia.
Qed.

Lemma path_moves_one_cell_at_a_time_witness :
  length (movePath 30 6) = Z.to_nat 6
  ∧ reflected 30 0 = 30
  ∧ ∀ k, 0 ≤ k < 6 →
      movePath 30 6 !! Z.to_nat k = Some (reflected 30 (k + 1))
      ∧ Z.abs (reflected 30 (k + 1) - reflected 30 k) = 1
      ∧ 0 ≤ reflected 30 (k + 1) ≤ 34.
Proof. apply (path_moves_one_cell_at_a_time 30 6); lia. Defined.

Example path_from_30 : movePath 30 6 = [31; 32; 33; 34; 33; 32].
Proof. reflexivity. Qed.

(** ** What a roll leaves alone *)

Lemma arr_get_set_ne {A} (a : list A) (j k : Z) (x : A) :
  j ≠ k → arr_get (arr_set a k x) j = arr_get a j.
Proof.
  intros Hne. unfold arr_get, arr_set.
  repeat case_bool_decide; try done.
  apply list_lookup_insert_ne. lia.
Qed.

Lemma walk_frame (steps : Z) (path : list Z) (s s' : GameState) (me : Player.t) :
  arr_get (players s) (current s) = Some me →
  walk steps path s = Some s' →
  ∃ dest,
    players s' = arr_set (players s) (current s) (Player.with_pos dest me)
    ∧ phase s' = phase s ∧ board s' = board s ∧ current s' = current s
    ∧ passScreen s' = passScreen s ∧ popup s' = popup s
    ∧ timers s' = timers s ∧ winnerName s' = winnerName s
    ∧ animating s' = animating s.
Proof.
  intros Hme. destruct (last path) as [dest|] eqn:Hlast.
  - rewrite (walk_last steps path s me dest Hme Hlast). intros [= <-].
    by exists dest.
  - apply last_None in Hlast as ->. intros [= <-]. exists (Player.pos me).
    by rewrite with_pos_same, arr_set_id.
Qed.

(** A roll played in full, from any state in which it goes through: where
    the current player may have moved, and what is as before. *)
Lemma animateMove_frame (steps : Z) (s s' : GameState) :
  animateMove steps s = Some s' →
  ∃ me dest,
    arr_get (players s) (current s) = Some me
    ∧ players s' = arr_set (players s) (current s) (Player.with_pos dest me)
    ∧ board s' = board s ∧ current s' = current s
    ∧ passScreen s' = passScreen s ∧ timers s' = timers s
    ∧ animating s' = false ∧ is_Some (popup s').
Proof.
  unfold animateMove, moveToken.
  destruct (arr_get (players s) (current s)) as [me|] eqn:Hme; [|done].
  cbn [mbind option_bind].
  destruct (walk _ _ _) as [s1|] eqn:Hwalk; [|done]. cbn [mbind option_bind].
  apply (walk_frame _ _ _ _ me) in Hwalk as
    (d1 & Hps & _ & Hb & Hc & Hpass & _ & Ht & _ & _); [|done].
  cbn in Hps, Hb, Hc, Hpass, Ht.
  assert (Hme1 : arr_get (players s1) (current s1) = Some (Player.with_pos d1 me)).
  { rewrite Hps, Hc. by eapply arr_get_set_eq. }
  unfold resolveLanding. rewrite Hme1.
  cbn [mbind option_bind Player.pos Player.with_pos].
  destruct (arr_get (board s1) d1) as [tile|]; cbn [mbind option_bind]; [|done].
  case_bool_decide.
  - destruct (arr_get (board s1) (clamp (d1 - 5) 0 WIN_INDEX)) as [landed|];
      cbn [mbind option_bind]; [|done].
    intros [= <-]. exists me. eexists.
    rewrite resolveTile_players, resolveTile_board, resolveTile_current,
      resolveTile_timers, resolveTile_animating, resolveTile_popup,
      (resolveTile_record s1).
    cbn [passScreen]. rewrite Hps, Hc, arr_set_set. cbn.
    by repeat split.
  - intros [= <-]. exists me, d1.
    rewrite resolveTile_players, resolveTile_board, resolveTile_current,
      resolveTile_timers, resolveTile_animating, resolveTile_popup,
      (resolveTile_record s1).
    cbn [passScreen]. by repeat split.
Qed.

(** X4.  A roll that goes through moves nobody but the current player and
    changes nothing of that player but the position: the other entries of
    the roster, its length, every id, name and colour, the board, the timers
    and the player whose turn it is are as before; the animation is over and
    a popup is up. *)
Theorem roll_moves_only_the_current_player (steps : Z) (s s' : GameState) :
  animateMove steps s = Some s' →
  length (players s') = length (players s)
  ∧ (∀ j, j ≠ current s → arr_get (players s') j = arr_get (players s) j)
  ∧ Player.with_pos 0 <$> players s' = Player.with_pos 0 <$> players s
  ∧ board s' = board s ∧ current s' = current s ∧ timers s' = timers s
  ∧ animating s' = false ∧ is_Some (popup s').
Proof.
  intros (me & dest & Hme & -> & Hb & Hc & _ & Ht & Ha & Hpop)%animateMove_frame.
  split; [apply length_arr_set|].
  split; [intros j Hj; by apply arr_get_set_ne|].
  split; [|done].
  apply arr_get_Some in Hme as [Hcur Hme]. unfold arr_set.
  rewrite bool_decide_eq_false_2 by lia.
  rewrite list_fmap_insert. apply list_insert_id.
  by rewrite list_lookup_fmap, Hme.
Qed.

Lemma roll_moves_only_the_current_player_witness :
  ∃ s',
    animateMove 6 game_at_30 = Some s'
    ∧ length (players s') = length (players game_at_30)
    ∧ (∀ j, j ≠ 0 → arr_get (players s') j = arr_get (players game_at_30) j)
    ∧ Player.with_pos 0 <$> players s' = Player.with_pos 0 <$> players game_at_30
    ∧ board s' = buildBoard ∧ current s' = 0 ∧ timers s' = []
    ∧ animating s' = false ∧ is_Some (popup s').
Proof.
  eexists. split; [exact overshoot_from_30|].
  apply (roll_moves_only_the_current_player 6 game_at_30). exact overshoot_from_30.
Defined.

(** ** Gating of the roll *)

(** X5.  Rolling is refused, leaving the state as it is, right after a roll
    (whether that roll went through, and put a popup up, or was itself
    refused) and right after a popup was confirmed (the pass screen is up,
    or the game is back in the lobby). *)
Theorem roll_refused_until_confirmed_and_ready :
  (∀ rnd rnd' s s', onRoll rnd s = Some s' → onRoll rnd' s' = Some s')
  ∧ (∀ now uuid rnd w w',
       is_Some (popup (state w)) →
       handlePopupPress now uuid w = Some w' →
       onRoll rnd (state w') = Some (state w')).
Proof.
  split.
  - intros rnd rnd' s s'. unfold onRoll at 1.
    case_bool_decide as Hph;
      [intros [= <-]; unfold onRoll; by rewrite bool_decide_eq_true_2|].
    destruct (passScreen s) eqn:Hpass;
      [intros [= <-]; unfold onRoll; rewrite Hpass; by case_bool_decide|].
    destruct (animating s) eqn:Hanim;
      [intros [= <-]; unfold onRoll; rewrite Hpass, Hanim; by case_bool_decide|].
    case_bool_decide as Hpop;
      [intros [= <-]; unfold onRoll; rewrite Hpass, Hanim;
       rewrite (bool_decide_eq_true_2 (is_Some _)) by done; by case_bool_decide|].
    intros (_ & _ & _ & _ & _ & _ & _ & _ & _ & Hup)%animateMove_frame.
    unfold onRoll. rewrite (bool_decide_eq_true_2 (is_Some _)) by done.
    case_bool_decide; [done|]. by destruct (passScreen s'), (animating s').
  - intros now uuid rnd w w' [p Hpop]. unfold handlePopupPress. rewrite Hpop.
    case_bool_decide as Hfin; [by intros [= <-]|].
    assert (Hturn : ∀ s s1, advanceTurn s = Some s1 → onRoll rnd s1 = Some s1).
    { intros s s1. unfold advanceTurn. case_bool_decide; [done|].
      intros [= <-]. unfold onRoll. cbn. by case_bool_decide. }
    unfold lift.
    destruct (Popup.action p).
    + destruct (advanceTurn (state w)) as [s1|] eqn:Hadv; [|done].
      intros [= <-]. by eapply Hturn.
    + destruct (addSnapTimer now uuid (state w)) as [s0|]; [|done].
      cbn [mbind option_bind].
      destruct (advanceTurn s0) as [s1|] eqn:Hadv; [|done].
      intros [= <-]. by eapply Hturn.
    + destruct (addTikTokTimer now uuid (state w)) as [s0|]; [|done].
      cbn [mbind option_bind].
      destruct (advanceTurn s0) as [s1|] eqn:Hadv; [|done].
      intros [= <-]. by eapply Hturn.
Qed.

Lemma roll_refused_until_confirmed_and_ready_witness :
  onRoll 2 {| phase := playing; board := buildBoard;
              players := [ Player.mk "id-a" "A" 32 "#FF3B30";
                           Player.mk "id-b" "B" 4 "#FF9500";
                           Player.mk "id-c" "C" 11 "#FFCC00" ];
              current := 0; passScreen := false; lastRoll := Some 6;
              popup := Some (popupFor finish "CONTINUE" continue);
              timers := []; winnerName := None; animating := false |}
  = Some {| phase := playing; board := buildBoard;
            players := [ Player.mk "id-a" "A" 32 "#FF3B30";
                         Player.mk "id-b" "B" 4 "#FF9500";
                         Player.mk "id-c" "C" 11 "#FFCC00" ];
            current := 0; passScreen := false; lastRoll := Some 6;
            popup := Some (popupFor finish "CONTINUE" continue);
            timers := []; winnerName := None; animating := false |}.
Proof.
  apply (proj1 roll_refused_until_confirmed_and_ready 5 2 game_at_30).
  reflexivity.
Defined.

(** ** Colours *)

Lemma pickPlayerColor_fresh (rnd : nat) (used : gset string) (c : string) :
  c ∈ PLAYER_COLORS → c ∉ used → pickPlayerColor rnd used ∉ used.
Proof.
  intros Hc Hfree. unfold pickPlayerColor.
  set (available := filter (λ c, c ∉ used) PLAYER_COLORS).
  assert (Hin : c ∈ available) by (by apply list_elem_of_filter).
  rewrite bool_decide_eq_false_2 by (intros Hnil; rewrite Hnil in Hin; inversion Hin).
  assert (Hpick : nth (rnd mod length available)%nat available "" ∈ available).
  { apply list_elem_of_In, nth_In, Nat.mod_upper_bound.
    destruct available; [inversion Hin|done]. }
  by apply list_elem_of_filter in Hpick as [? _].
Qed.

(** X6.  [pickPlayerColor] always returns a colour of the palette, and one
    that is not in use as long as the palette has such a colour; repeats
    begin only when every colour of the palette is in use. *)
Theorem pickPlayerColor_prefers_unused (rnd : nat) (used : gset string) :
  pickPlayerColor rnd used ∈ PLAYER_COLORS
  ∧ ((∃ c, c ∈ PLAYER_COLORS ∧ c ∉ used) → pickPlayerColor rnd used ∉ used).
Proof.
  split; [apply pickPlayerColor_in_palette|].
  intros (c & Hc & Hfree). by eapply pickPlayerColor_fresh.
Qed.

Lemma pickPlayerColor_prefers_unused_witness :
  pickPlayerColor 20 {[ "#FF3B30"; "#FF9500" ]} ∉ ({[ "#FF3B30"; "#FF9500" ]} : gset string).
Proof.
  apply (pickPlayerColor_prefers_unused 20 {[ "#FF3B30"; "#FF9500" ]}).
  exists "#FFCC00". split; [|by compute_done].
  apply list_elem_of_In. cbn. tauto.
Defined.

(** ** The roster *)

Lemma trimEnd_cons (c : Ascii.ascii) (r : string) :
  trimEnd (String c r)
  = match trimEnd r with
    | EmptyString => if is_space c then EmptyString else String c EmptyString
    | r' => String c r'
    end.
Proof. done. Qed.

Lemma trimEnd_idem (s : string) : trimEnd (trimEnd s) = trimEnd s.
Proof.
  induction s as [|c r IH]; [done|]. rewrite (trimEnd_cons c r).
  destruct (trimEnd r) as [|a b] eqn:Hr.
  - destruct (is_space c) eqn:Hc; [done|]. cbn. by rewrite Hc.
  - by rewrite trimEnd_cons, IH.
Qed.

Lemma trimEnd_head (c : Ascii.ascii) (r : string) :
  is_space c = false → ∃ r', trimEnd (String c r) = String c r'.
Proof.
  intros Hc. cbn. rewrite Hc. destruct (trimEnd r); by eexists.
Qed.

(** Trimming a trimmed string changes nothing, for the ASCII host. *)
Lemma ascii_trim_idem (s : string) : ascii_trim (ascii_trim s) = ascii_trim s.
Proof.
  unfold ascii_trim. destruct (blank s) eqn:Hb.
  - by rewrite (trimStart_blank s Hb).
  - destruct (trimStart_not_blank s Hb) as (c & r & -> & Hc).
    destruct (trimEnd_head c r Hc) as [r' Hr']. rewrite Hr'.
    cbn [trimStart]. rewrite Hc, <- Hr'. apply trimEnd_idem.
Qed.

Lemma fmap_arr_set_with_pos {B} (f : Player.t → B) (ps : list Player.t)
    (k d : Z) (me : Player.t) :
  (∀ d' p, f (Player.with_pos d' p) = f p) →
  arr_get ps k = Some me →
  f <$> arr_set ps k (Player.with_pos d me) = f <$> ps.
Proof.
  intros Hf [Hk Hme]%arr_get_Some. unfold arr_set.
  rewrite bool_decide_eq_false_2 by lia.
  rewrite list_fmap_insert, Hf. apply list_insert_id.
  by rewrite list_lookup_fmap, Hme.
Qed.

Lemma tidy_initial {host : HostStrings} : tidy initialState.
Proof. split; cbn; try done; try lia; constructor. Qed.

(** Any change that keeps the roster up to positions keeps it tidy. *)
Lemma tidy_same_roster {host : HostStrings} (s s' : GameState) :
  tidy s →
  Player.with_pos 0 <$> players s' = Player.with_pos 0 <$> players s →
  tidy s'.
Proof.
  intros [Hsize Hnames Hdiff Hcol Hcoldiff] Hroster.
  assert (Hvia : ∀ {B} (f : Player.t → B),
             (∀ p, f (Player.with_pos 0 p) = f p) →
             f <$> players s' = f <$> players s).
  { intros B f Hf.
    rewrite <- (list_fmap_ext (f ∘ Player.with_pos 0) f (players s'))
      by (intros; apply Hf).
    rewrite <- (list_fmap_ext (f ∘ Player.with_pos 0) f (players s))
      by (intros; apply Hf).
    by rewrite !list_fmap_compose, Hroster. }
  assert (Hmem : ∀ p', p' ∈ players s' →
             ∃ p, p ∈ players s ∧ Player.name p' = Player.name p
                  ∧ Player.color p' = Player.color p).
  { intros p' Hp'. apply (list_elem_of_fmap_2 (Player.with_pos 0)) in Hp'.
    rewrite Hroster in Hp'. apply list_elem_of_fmap in Hp' as (p & Heq & Hp).
    exists p. split; [done|].
    split; [apply (f_equal Player.name) in Heq | apply (f_equal Player.color) in Heq];
      exact Heq. }
  split.
  - rewrite <- (length_fmap (Player.with_pos 0)), Hroster. by rewrite length_fmap.
  - apply Forall_forall. intros p' (p & Hp & -> & _)%Hmem.
    by apply (proj1 (Forall_forall _ _) Hnames).
  - by rewrite (Hvia _ (λ p, toLowerCase (Player.name p))).
  - apply Forall_forall. intros p' (p & Hp & _ & ->)%Hmem.
    by apply (proj1 (Forall_forall _ _) Hcol).
  - by rewrite (Hvia _ Player.color).
Qed.

(** The same roster with another phase, turn, popup or timers. *)
Lemma tidy_same_players {host : HostStrings} (s s' : GameState) :
  tidy s → players s' = players s → tidy s'.
Proof. intros Hs Hps. apply (tidy_same_roster s); [done|by rewrite Hps]. Qed.

Lemma palette_NoDup : NoDup PLAYER_COLORS.
Proof. compute_done. Qed.

(** While fewer than sixteen colours are in use, one of the palette is
    free. *)
Lemma palette_has_free_colour (cs : list string) :
  (length cs < 16)%nat →
  ∃ c, c ∈ PLAYER_COLORS ∧ c ∉ (list_to_set cs : gset string).
Proof.
  intros Hlen.
  destruct (filter (λ c, c ∉ (list_to_set cs : gset string)) PLAYER_COLORS)
    as [|c rest] eqn:Hav.
  - exfalso.
    assert (Hall : ∀ c, c ∈ PLAYER_COLORS → c ∈ cs).
    { intros c Hc. destruct (decide (c ∈ (list_to_set cs : gset string))) as [Hin|Hout].
      - by apply elem_of_list_to_set in Hin.
      - assert (c ∈ filter (λ c, c ∉ (list_to_set cs : gset string)) PLAYER_COLORS)
          as Hf by (by apply list_elem_of_filter).
        rewrite Hav in Hf. inversion Hf. }
    pose proof (submseteq_length _ _ (NoDup_submseteq _ _ palette_NoDup Hall)) as Hle.
    cbn in Hle. lia.
  - exists c.
    assert (c ∈ filter (λ c, c ∉ (list_to_set cs : gset string)) PLAYER_COLORS)
      as Hf by (rewrite Hav; apply list_elem_of_here).
    by apply list_elem_of_filter in Hf as [? ?].
Qed.

Lemma tidy_addPlayer {host : HostStrings} (nameRaw uuid : string) (rnd : nat)
    (s : GameState) :
  tidy s → tidy (addPlayer nameRaw uuid rnd s).
Proof.
  intros Hs. unfold addPlayer.
  case_bool_decide as Hname; [done|].
  case_bool_decide as Hfull; [done|].
  destruct (existsb _ _) eqn:Hdup; [done|].
  assert (Hfresh : ∀ p, p ∈ players s →
             toLowerCase (Player.name p) ≠ toLowerCase (trim nameRaw)).
  { intros p Hp Heq. apply not_true_iff_false in Hdup. apply Hdup.
    apply existsb_exists. exists p.
    split; [by apply list_elem_of_In|]. by apply bool_decide_eq_true. }
  unfold MAX_PLAYERS in Hfull.
  destruct Hs as [Hsize Hnames Hdiff Hcol Hcoldiff].
  destruct (palette_has_free_colour (Player.color <$> players s)) as (c & Hc & Hfree);
    [rewrite length_fmap; lia|].
  pose proof (pickPlayerColor_fresh rnd _ c Hc Hfree) as Hnew.
  rewrite elem_of_list_to_set in Hnew.
  split; cbn.
  - rewrite length_app. cbn. lia.
  - apply Forall_app. split; [done|]. apply Forall_singleton.
    split; [done|by eexists].
  - rewrite fmap_app. apply NoDup_app. split; [done|]. split; [|apply NoDup_singleton].
    intros x (p & -> & Hp)%list_elem_of_fmap Hx. cbn in Hx.
    apply list_elem_of_singleton in Hx. by apply (Hfresh p).
  - apply Forall_app. split; [done|]. apply Forall_singleton.
    apply pickPlayerColor_in_palette.
  - rewrite fmap_app. apply NoDup_app. split; [done|]. split; [|apply NoDup_singleton].
    intros x Hx Hx'. cbn in Hx'. apply list_elem_of_singleton in Hx' as ->. done.
Qed.

Lemma tidy_removePlayer {host : HostStrings} (id : string) (s : GameState) :
  tidy s → tidy (removePlayer id s).
Proof.
  intros [Hsize Hnames Hdiff Hcol Hcoldiff].
  assert (Hsub : filter (λ p, Player.id p ≠ id) (players s) `sublist_of` players s)
    by apply sublist_filter.
  split; cbn.
  - apply sublist_length in Hsub. lia.
  - apply Forall_forall. intros p [_ Hp]%list_elem_of_filter.
    by apply (proj1 (Forall_forall _ _) Hnames).
  - eapply sublist_NoDup; [exact Hdiff|]. by apply fmap_sublist.
  - apply Forall_forall. intros p [_ Hp]%list_elem_of_filter.
    by apply (proj1 (Forall_forall _ _) Hcol).
  - eapply sublist_NoDup; [exact Hcoldiff|]. by apply fmap_sublist.
Qed.

Lemma tidy_stepTo {host : HostStrings} (steps pos : Z) (s s' : GameState) :
  tidy s → stepTo steps pos s = Some s' → tidy s'.
Proof.
  intros Hs. unfold stepTo.
  destruct (arr_get (players s) (current s)) as [me|] eqn:Hme; [|done].
  intros [= <-]. apply (tidy_same_roster s); [done|]. cbn.
  by apply fmap_arr_set_with_pos.
Qed.

Lemma tidy_resolveLanding {host : HostStrings} (s s' : GameState) :
  tidy s → resolveLanding s = Some s' → tidy s'.
Proof.
  intros Hs (me & dest & t & Hme & _ & _ & Hps & _)%resolveLanding_frame.
  apply (tidy_same_roster s); [done|]. rewrite Hps.
  by apply fmap_arr_set_with_pos.
Qed.

(** What pressing the popup's button can do to the state: nothing, a new
    game, or the turn passed on. *)
Lemma handlePopupPress_frame (now : Z) (uuid : string) (w w' : World) :
  handlePopupPress now uuid w = Some w' →
  w' = w
  ∨ (phase (state w) = finished ∧ w' = newGame w)
  ∨ (phase (state w) ≠ finished
     ∧ players (state w) ≠ []
     ∧ players (state w') = players (state w)
     ∧ phase (state w') = phase (state w)
     ∧ board (state w') = board (state w)
     ∧ current (state w')
       = (current (state w) + 1) `rem` Z.of_nat (length (players (state w)))).
Proof.
  unfold handlePopupPress.
  destruct (popup (state w)) as [p|]; [|intros [= <-]; by left].
  case_bool_decide as Hfin; [intros [= <-]; right; by left|].
  intros Hpress. right. right. split; [done|]. revert Hpress.
  unfold lift, addSnapTimer, addTikTokTimer, advanceTurn.
  destruct (Popup.action p); cbn [mbind option_bind];
    try (destruct (arr_get (players (state w)) (current (state w)));
         cbn [mbind option_bind players with_timers]; [|done]);
    (case_bool_decide as Hne; cbn [mbind option_bind]; [done|]);
    by intros [= <-].
Qed.

Lemma tidy_handle {host : HostStrings} (e : Event) (w w' : World) :
  tidy (state w) → is_roll e = false → handle e w = Some w' → tidy (state w').
Proof.
  intros Ht Hroll Hh. destruct e; cbn in Hroll, Hh; try done;
    try (injection Hh as <-; cbn).
  - by apply tidy_addPlayer.
  - by apply tidy_removePlayer.
  - destruct Ht. split; cbn; try done; try lia; constructor.
  - unfold startGame. case_bool_decide; [done|].
    by apply (tidy_same_players (state w)).
  - by apply (tidy_same_players (state w)).
  - apply handlePopupPress_frame in Hh
      as [-> | [[_ ->] | (_ & _ & Hps & _)]]; [done|apply tidy_initial|].
    by apply (tidy_same_players (state w)).
  - by apply (tidy_same_players (state w)).
  - by apply (tidy_same_players (state w)).
  - by apply (tidy_same_players (state w)).
  - apply tidy_initial.
Qed.

(** ** The states of the page *)

Lemma rollDice_range (rnd : Z) : 1 ≤ rollDice rnd ≤ 6.
Proof. unfold rollDice. pose proof (Z.mod_pos_bound rnd 6). lia. Qed.

Lemma onRoll_rollable (rnd : Z) (s : GameState) :
  onRoll rnd s = if rollable s then animateMove (rollDice rnd) s else Some s.
Proof.
  unfold onRoll, rollable.
  destruct (decide (phase s = playing)) as [Hph|Hph].
  2: { rewrite (bool_decide_eq_true_2 (phase s ≠ playing)) by done.
       by rewrite (bool_decide_eq_false_2 (phase s = playing)). }
  rewrite (bool_decide_eq_false_2 (phase s ≠ playing)) by (by intros ?).
  rewrite (bool_decide_eq_true_2 (phase s = playing)) by done.
  destruct (passScreen s); [done|]. destruct (animating s); [done|]. cbn.
  destruct (popup s) as [p|].
  - rewrite bool_decide_eq_true_2 by done. by rewrite bool_decide_eq_false_2.
  - rewrite bool_decide_eq_false_2 by (by intros [? ?]).
    by rewrite bool_decide_eq_true_2.
Qed.

(** The cells of a path stay on the board. *)
Lemma movePath_range (p d pos : Z) :
  0 ≤ p ≤ 34 → 1 ≤ d ≤ 6 → pos ∈ movePath p d → 0 ≤ pos ≤ 34.
Proof.
  intros Hp Hd. unfold movePath, upto. change WIN_INDEX with 34.
  case_bool_decide.
  - intros ?%elem_of_seqZ. lia.
  - intros [?%elem_of_seqZ | (b & -> & ?%elem_of_seqZ)%list_elem_of_fmap]%elem_of_app;
      lia.
Qed.

Lemma Forall_arr_set {A} (P : A → Prop) (a : list A) (k : Z) (x : A) :
  Forall P a → P x → Forall P (arr_set a k x).
Proof.
  intros Ha Hx. unfold arr_set. case_bool_decide; [done|].
  by apply Forall_insert.
Qed.

Lemma steady_initial : steady initialState.
Proof. by split. Qed.

Lemma steady_lobby_players (s : GameState) (ps : list Player.t) :
  steady s → phase s = lobby →
  Forall (λ p, 0 ≤ Player.pos p ≤ 34) ps →
  steady (with_players ps s).
Proof. intros [] Hph Hps. split; cbn; try done; congruence. Qed.

Lemma steady_with_timers (s : GameState) (ts : list GameTimer.t) :
  steady s → steady (with_timers ts s).
Proof. intros []. by split. Qed.

Lemma steady_current_player (s : GameState) :
  steady s → phase s ≠ lobby →
  ∃ me, arr_get (players s) (current s) = Some me ∧ 0 ≤ Player.pos me ≤ 34.
Proof.
  intros Hs Hph. pose proof (steady_turn s Hs Hph) as Hcur.
  destruct (arr_get_lt (players s) (current s) Hcur) as [me Hme].
  exists me. split; [done|].
  apply arr_get_Some in Hme as [_ Hme].
  by apply (Forall_lookup_1 _ _ _ _ (steady_positions s Hs) Hme).
Qed.

Lemma steady_stepTo (steps pos : Z) (s s' : GameState) :
  steady s → 0 ≤ pos ≤ 34 → stepTo steps pos s = Some s' → steady s'.
Proof.
  intros [Hb Hps Hplay Hturn] Hpos. unfold stepTo.
  destruct (arr_get (players s) (current s)) as [me|]; [|done].
  intros [= <-]. split; cbn; rewrite ?length_arr_set; try done.
  by apply Forall_arr_set.
Qed.

Lemma steady_resolveLanding (s s' : GameState) :
  steady s → resolveLanding s = Some s' → steady s'.
Proof.
  intros [Hb Hps Hplay Hturn]
    (me & dest & t & Hme & Hdest & _ & Hps' & Hs')%resolveLanding_frame.
  assert (Hin : 0 ≤ Player.pos me ≤ 34).
  { apply arr_get_Some in Hme as [_ Hme].
    by apply (Forall_lookup_1 _ _ _ _ Hps Hme). }
  assert (Hrange : 0 ≤ dest ≤ 34).
  { unfold clamp in Hdest. change WIN_INDEX with 34 in Hdest. lia. }
  split.
  - by rewrite Hs', resolveTile_board.
  - rewrite Hps'. by apply Forall_arr_set.
  - rewrite Hps', length_arr_set, Hs', resolveTile_phase.
    case_bool_decide; [done|]. exact Hplay.
  - intros _. rewrite Hps', length_arr_set, Hs', resolveTile_current.
    by apply arr_get_bounds in Hme.
Qed.

Lemma steady_handle {host : HostStrings} (e : Event) (w w' : World) :
  steady (state w) → is_roll e = false →
  enabled e (state w) = true → handle e w = Some w' →
  steady (state w').
Proof.
  intros Hs Hroll Hen Hh. destruct e; cbn in Hroll, Hen, Hh; try done;
    try apply bool_decide_eq_true in Hen;
    try (injection Hh as <-; cbn).
  - unfold addPlayer.
    repeat (case_bool_decide; [done|]). destruct (existsb _ _); [done|].
    apply steady_lobby_players; [done..|].
    apply Forall_app. split; [apply Hs|]. by apply Forall_singleton.
  - apply steady_lobby_players; [done..|].
    apply Forall_forall. intros p [_ Hp]%list_elem_of_filter.
    by apply (proj1 (Forall_forall _ _) (steady_positions _ Hs)).
  - apply steady_lobby_players; [done..|]. constructor.
  - unfold startGame. case_bool_decide as Hcount; [done|].
    destruct Hs. split; cbn; try done; intros _; lia.
  - destruct Hs. by split.
  - apply handlePopupPress_frame in Hh
      as [-> | [[_ ->] | (_ & Hne & Hps & Hph & Hb & Hcur)]];
      [done|apply steady_initial|].
    destruct Hs as [Hb0 Hps0 Hplay Hturn].
    split; rewrite ?Hps, ?Hph, ?Hb, ?Hcur; try done.
    intros Hl. specialize (Hturn Hl).
    rewrite Z.rem_mod_nonneg by lia. apply Z.mod_pos_bound. lia.
  - by apply steady_with_timers.
  - by apply steady_with_timers.
  - destruct Hs. split; cbn; try done.
  - apply steady_initial.
Qed.

(** Every state of the page is steady. *)
Lemma reachable_steady {host : HostStrings} (w : World) :
  reachable w → steady (state w).
Proof.
  induction 1 as [st | w w0 _ _ _ IH0 _ | stringify w _ IH
                  | e w w' _ IH Hroll Hen Hh | w _ IH _
                  | w0 p0 rnd pos w s' _ IH0 _ Hp0 Hpos _ IH Hstep
                  | w s' _ IH Hland].
  - apply steady_initial.
  - exact IH0.
  - unfold saveEffect. by destruct (animating (state w)).
  - by eapply steady_handle.
  - destruct IH. by split.
  - cbn. eapply steady_stepTo; [exact IH| |exact Hstep].
    eapply movePath_range; [|apply rollDice_range|exact Hpos].
    apply arr_get_Some in Hp0 as [_ Hp0].
    by apply (Forall_lookup_1 _ _ _ _ (steady_positions _ IH0) Hp0).
  - cbn. by eapply steady_resolveLanding.
Qed.

(** Every state of the page has a tidy roster. *)
Lemma reachable_tidy {host : HostStrings} (w : World) :
  reachable w → tidy (state w).
Proof.
  induction 1 as [st | w w0 _ _ _ IH0 _ | stringify w _ IH
                  | e w w' _ IH Hroll Hen Hh | w _ IH _
                  | w0 p0 rnd pos w s' _ IH0 _ Hp0 Hpos _ IH Hstep
                  | w s' _ IH Hland].
  - apply tidy_initial.
  - exact IH0.
  - unfold saveEffect. by destruct (animating (state w)).
  - by eapply tidy_handle.
  - by apply (tidy_same_players (state w)).
  - cbn. by eapply tidy_stepTo.
  - cbn. by eapply tidy_resolveLanding.
Qed.

(** A roll that nothing interrupts is one way for its updaters to run. *)
Lemma reachable_walk {host : HostStrings} (w0 : World) (p0 : Player.t) (rnd : Z)
    (st : Storage) (path : list Z) (s s' : GameState) :
  reachable w0 → rollable (state w0) = true →
  arr_get (players (state w0)) (current (state w0)) = Some p0 →
  (∀ pos, pos ∈ path → pos ∈ movePath (Player.pos p0) (rollDice rnd)) →
  reachable (mkWorld st s) →
  walk (rollDice rnd) path s = Some s' →
  reachable (mkWorld st s').
Proof.
  intros Hw0 Hroll Hp0. revert s.
  induction path as [|pos rest IH]; intros s Hin Hs; cbn.
  - by intros [= <-].
  - destruct (stepTo (rollDice rnd) pos s) as [s1|] eqn:Hstep; [|done]. cbn.
    apply IH.
    + intros q Hq. apply Hin. by apply list_elem_of_further.
    + apply (reachable_roll_move w0 p0 rnd pos (mkWorld st s) s1); try done.
      apply Hin, list_elem_of_here.
Qed.

Lemma reachable_onRoll {host : HostStrings} (rnd : Z) (w : World) (s' : GameState) :
  reachable w → onRoll rnd (state w) = Some s' →
  reachable (mkWorld (storage w) s').
Proof.
  intros Hw. rewrite onRoll_rollable.
  destruct (rollable (state w)) eqn:Hroll; [|intros [= <-]; by destruct w].
  unfold animateMove, moveToken.
  destruct (arr_get (players (state w)) (current (state w))) as [p0|] eqn:Hp0;
    [|done].
  cbn [mbind option_bind].
  destruct (walk _ _ _) as [s1|] eqn:Hwalk; [|done]. cbn [mbind option_bind].
  intros Hland.
  apply (reachable_roll_land (mkWorld (storage w) s1)); [|done].
  eapply (reachable_walk w p0 rnd); [done..| |exact Hwalk].
  by apply reachable_roll_begin.
Qed.

Lemma run_reachable {host : HostStrings} (es : list Event) (w w' : World) :
  reachable w → run es w = Some w' → reachable w'.
Proof.
  revert w. induction es as [|e rest IH]; intros w Hw; cbn.
  - by intros [= <-].
  - destruct (enabled e (state w)) eqn:Hen; [|done].
    destruct (handle e w) as [w1|] eqn:Hh; [|done]. cbn.
    apply IH. destruct (is_roll e) eqn:Hroll.
    + destruct e; try done. cbn in Hh. unfold lift in Hh.
      destruct (onRoll rnd (state w)) as [s1|] eqn:Hs1; [|done].
      injection Hh as <-. by apply (reachable_onRoll rnd).
    + by eapply reachable_event.
Qed.

Lemma opening_runs :
  run (host := ascii_host) opening (mkWorld (Available ∅) initialState)
  = Some amy_on_snap.
Proof. by vm_compute. Qed.

Lemma winning_game_runs :
  run (host := ascii_host) winning_game (mkWorld (Available ∅) initialState)
  = Some amy_wins.
Proof. by vm_compute. Qed.

Lemma amy_on_snap_reachable : reachable (host := ascii_host) amy_on_snap.
Proof.
  apply (run_reachable opening (mkWorld (Available ∅) initialState));
    [apply reachable_init | exact opening_runs].
Qed.

Lemma amy_wins_reachable : reachable (host := ascii_host) amy_wins.
Proof.
  apply (run_reachable winning_game (mkWorld (Available ∅) initialState));
    [apply reachable_init | exact winning_game_runs].
Qed.

Lemma amy_to_roll_reachable : reachable (host := ascii_host) amy_to_roll.
Proof.
  apply (run_reachable
           [ AddPlayer "Amy" "id-1" 0; AddPlayer "Bo" "id-2" 1; StartGame; Ready ]
           (mkWorld (Available ∅) initialState));
    [apply reachable_init | by vm_compute].
Qed.

(** What the page does when BACK TO LOBBY is pressed while a token moves:
    the roll has begun, the game is sent back to the lobby, and the updaters
    of the roll still run: the token is moved and the landing is resolved in
    the lobby, which then has a popup up. *)
Example back_to_lobby_during_a_roll :
  reachable (host := ascii_host) lobby_with_popup.
Proof.
  pose proof amy_to_roll_reachable as H0.
  pose proof (reachable_roll_begin _ H0 eq_refl) as H1.
  pose proof (reachable_event BackToLobby _ _ H1 eq_refl eq_refl eq_refl) as H2.
  assert (H3 : 1 ∈ movePath 0 (rollDice 0)) by apply list_elem_of_here.
  pose proof (reachable_roll_move amy_to_roll (Player.mk "id-1" "Amy" 0 "#FF3B30")
                0 1 _ _ H0 eq_refl eq_refl H3 H2 eq_refl) as H4.
  exact (reachable_roll_land _ _ H4 eq_refl).
Qed.

(** What the page does when NEW GAME is pressed while a token moves: the
    state is the initial one, and the updaters of the roll, which still run,
    find no player under the current index and throw. *)
Example new_game_during_a_roll :
  handle (host := ascii_host) NewGame
    (mkWorld (Available ∅) (with_animating true (state amy_to_roll)))
  = Some (mkWorld (Available ∅) initialState)
  ∧ stepTo 1 1 initialState = None
  ∧ resolveLanding initialState = None.
Proof. by vm_compute. Qed.

(** A second roll inside the first.  Amy, on cell 29, rolls a five; while
    her token moves, BACK TO LOBBY, START and READY are pressed and the die
    is rolled again, a one, from cell 29.  The first roll takes her to cell
    34 and she wins; the step of the second roll then puts her on cell
    30. *)
Example second_roll_moves_the_winner :
  reachable (host := ascii_host) winner_moved.
Proof.
  assert (H0 : reachable (host := ascii_host) amy_on_29).
  { apply (run_reachable last_turn (mkWorld (Available ∅) initialState));
      [apply reachable_init | by vm_compute]. }
  pose (amy := Player.mk "id-1" "Amy" 29 "#FF3B30").
  assert (Hpath : ∀ k pos, [30; 31; 32; 33; 34] !! k = Some pos →
                           pos ∈ movePath 29 (rollDice 4))
    by (intros k pos; apply list_elem_of_lookup_2).
  pose proof (reachable_roll_begin _ H0 eq_refl) as H1.
  pose proof (reachable_event BackToLobby _ _ H1 eq_refl eq_refl eq_refl) as H2.
  pose proof (reachable_event StartGame _ _ H2 eq_refl eq_refl eq_refl) as H3.
  pose proof (reachable_event Ready _ _ H3 eq_refl eq_refl eq_refl) as H4.
  pose proof (reachable_roll_begin _ H4 eq_refl) as H5.
  pose proof (reachable_roll_move amy_on_29 amy 4 30 _ _ H0 eq_refl eq_refl
                (Hpath 0%nat 30 eq_refl) H5 eq_refl) as H6.
  pose proof (reachable_roll_move amy_on_29 amy 4 31 _ _ H0 eq_refl eq_refl
                (Hpath 1%nat 31 eq_refl) H6 eq_refl) as H7.
  pose proof (reachable_roll_move amy_on_29 amy 4 32 _ _ H0 eq_refl eq_refl
                (Hpath 2%nat 32 eq_refl) H7 eq_refl) as H8.
  pose proof (reachable_roll_move amy_on_29 amy 4 33 _ _ H0 eq_refl eq_refl
                (Hpath 3%nat 33 eq_refl) H8 eq_refl) as H9.
  pose proof (reachable_roll_move amy_on_29 amy 4 34 _ _ H0 eq_refl eq_refl
                (Hpath 4%nat 34 eq_refl) H9 eq_refl) as H10.
  pose proof (reachable_roll_land _ _ H10 eq_refl) as H11.
  assert (Hone : 30 ∈ movePath 29 (rollDice 0)) by apply list_elem_of_here.
  exact (reachable_roll_move _ (Player.mk "id-1" "Amy" 29 "#FF3B30") 0 30 _ _
           H4 eq_refl eq_refl Hone H11 eq_refl).
Qed.

(** ** Every state of the page *)

(** X7.  Whatever the users do and whenever they do it, the updaters of a
    running animation included: the board is the built one, every player
    stands on a cell 0..34, a game in play has at least two players, and
    outside the lobby the current index points at a player. *)
Theorem reachable_states_are_well_formed {host : HostStrings} (w : World) :
  reachable w →
  let s := state w in
  board s = buildBoard
  ∧ Forall (λ p, 0 ≤ Player.pos p ≤ 34) (players s)
  ∧ (phase s = playing → (2 ≤ length (players s))%nat)
  ∧ (phase s ≠ lobby → is_Some (arr_get (players s) (current s))).
Proof.
  intros Hs%reachable_steady. cbn. destruct Hs as [Hb Hp Hplay Hturn].
  split; [done|]. split; [done|]. split; [done|].
  intros Hc%Hturn. by apply arr_get_lt.
Qed.

Lemma reachable_states_are_well_formed_witness :
  let s := state amy_wins in
  board s = buildBoard
  ∧ Forall (λ p, 0 ≤ Player.pos p ≤ 34) (players s)
  ∧ (phase s = playing → (2 ≤ length (players s))%nat)
  ∧ (phase s ≠ lobby → is_Some (arr_get (players s) (current s))).
Proof.
  apply (reachable_states_are_well_formed (host := ascii_host) amy_wins).
  exact amy_wins_reachable.
Defined.

(** X8.  Outside the lobby nothing throws.  In every state of the page
    whose phase is not [lobby], each event other than a roll whose control
    is on screen is handled to the end; the current index points at a
    player, so that a roll can read its starting cell; and each updater of a
    roll, whenever it runs, goes through.  (In the lobby the updaters of a
    roll that is still running can throw, see [new_game_during_a_roll].) *)
Theorem nothing_throws_outside_the_lobby {host : HostStrings} (w : World) :
  reachable w → phase (state w) ≠ lobby →
  (∀ e, is_roll e = false → enabled e (state w) = true → is_Some (handle e w))
  ∧ is_Some (arr_get (players (state w)) (current (state w)))
  ∧ (∀ steps pos, is_Some (stepTo steps pos (state w)))
  ∧ is_Some (resolveLanding (state w)).
Proof.
  intros Hs%reachable_steady Hph.
  destruct (steady_current_player _ Hs Hph) as (me & Hme & Hpos).
  assert (Hboard : exact_win_board (board (state w))).
  { rewrite (steady_board _ Hs). apply buildBoard_exact_win. }
  split; [|split; [by eexists|split]].
  - intros e Hroll Hen. destruct e; cbn in *; try done; try by eexists.
    apply bool_decide_eq_true in Hen as [p Hpop].
    destruct (decide (phase (state w) = finished)) as [Hfin|Hfin].
    { unfold handlePopupPress. rewrite Hpop, bool_decide_eq_true_2 by done.
      by eexists. }
    by rewrite (handlePopupPress_playing now uuid w p me Hpop Hfin Hme).
  - intros steps pos. unfold stepTo. rewrite Hme. by eexists.
  - destruct (exact_win_board_get _ _ Hboard Hpos) as (tile & Htile & _).
    destruct (decide (Tile.type tile = back5)) as [Hback|Hplain].
    + assert (Hrange : 0 ≤ clamp (Player.pos me - 5) 0 WIN_INDEX ≤ 34)
        by (unfold clamp; change WIN_INDEX with 34; lia).
      destruct (exact_win_board_get _ _ Hboard Hrange) as (landed & Hlanded & _).
      rewrite (resolveLanding_back5 _ me tile landed); by eauto.
    + rewrite (resolveLanding_plain _ me tile); by eauto.
Qed.

Lemma nothing_throws_outside_the_lobby_witness :
  (∀ e, is_roll e = false → enabled e (state amy_on_snap) = true
        → is_Some (handle (host := ascii_host) e amy_on_snap))
  ∧ is_Some (arr_get (players (state amy_on_snap)) (current (state amy_on_snap)))
  ∧ (∀ steps pos, is_Some (stepTo steps pos (state amy_on_snap)))
  ∧ is_Some (resolveLanding (state amy_on_snap)).
Proof.
  apply (nothing_throws_outside_the_lobby (host := ascii_host) amy_on_snap);
    [|discriminate].
  exact amy_on_snap_reachable.
Defined.

(** X9.  During play there is always a way on.  While the pass screen is up
    its button is on screen.  Otherwise a popup that is up can be confirmed,
    which clears it and puts the pass screen up.  With neither up and a
    token moving, the landing updater of the roll goes through, ends the
    animation and puts a popup up.  With neither up and no token moving,
    every roll goes through and, left to run, puts a popup up. *)
Theorem play_never_gets_stuck {host : HostStrings} (w : World) :
  reachable w → phase (state w) = playing →
  (passScreen (state w) = true ∧ enabled Ready (state w) = true)
  ∨ (passScreen (state w) = false ∧ is_Some (popup (state w))
     ∧ ∀ now uuid, ∃ w', handlePopupPress now uuid w = Some w'
                        ∧ popup (state w') = None
                        ∧ passScreen (state w') = true)
  ∨ (passScreen (state w) = false ∧ popup (state w) = None
     ∧ animating (state w) = true
     ∧ ∃ s', resolveLanding (state w) = Some s'
             ∧ animating s' = false ∧ is_Some (popup s'))
  ∨ (passScreen (state w) = false ∧ popup (state w) = None
     ∧ animating (state w) = false
     ∧ ∀ rnd, ∃ s', onRoll rnd (state w) = Some s'
                    ∧ animating s' = false ∧ is_Some (popup s')).
Proof.
  intros Hs%reachable_steady Hph.
  destruct (steady_current_player _ Hs) as (me & Hme & Hpos); [congruence|].
  assert (Hboard : exact_win_board (board (state w))).
  { rewrite (steady_board _ Hs). apply buildBoard_exact_win. }
  destruct (passScreen (state w)) eqn:Hpass.
  { left. split; [done|]. cbn. rewrite Hpass, Hme.
    by rewrite !bool_decide_eq_true_2. }
  right. destruct (popup (state w)) as [p|] eqn:Hpop.
  { left. split; [done|]. split; [done|]. intros now uuid.
    eexists. split.
    - apply (handlePopupPress_playing now uuid w p me); [done|congruence|done].
    - done. }
  right. destruct (animating (state w)) eqn:Hanim.
  - left. split; [done|]. split; [done|]. split; [done|].
    destruct (exact_win_board_get _ _ Hboard Hpos) as (tile & Htile & _).
    destruct (decide (Tile.type tile = back5)) as [Hback|Hplain].
    + assert (Hrange : 0 ≤ clamp (Player.pos me - 5) 0 WIN_INDEX ≤ 34)
        by (unfold clamp; change WIN_INDEX with 34; lia).
      destruct (exact_win_board_get _ _ Hboard Hrange) as (landed & Hlanded & _).
      eexists. split; [by apply (resolveLanding_back5 _ me tile landed)|].
      by rewrite resolveTile_animating, resolveTile_popup.
    + eexists. split; [by apply (resolveLanding_plain _ me tile)|].
      by rewrite resolveTile_animating, resolveTile_popup.
  - right. split; [done|]. split; [done|]. split; [done|]. intros rnd.
    rewrite onRoll_rollable. unfold rollable. rewrite Hpass, Hpop, Hanim.
    rewrite !bool_decide_eq_true_2 by done. cbn.
    destruct (animateMove_outcome _ me (rollDice rnd) Hboard Hme Hpos
                (rollDice_range rnd)) as (dest & t & _ & _ & _ & _ & ->).
    by eexists.
Qed.

Lemma play_never_gets_stuck_witness :
  (passScreen (state amy_on_snap) = true ∧ enabled Ready (state amy_on_snap) = true)
  ∨ (passScreen (state amy_on_snap) = false ∧ is_Some (popup (state amy_on_snap))
     ∧ ∀ now uuid, ∃ w', handlePopupPress now uuid amy_on_snap = Some w'
                        ∧ popup (state w') = None
                        ∧ passScreen (state w') = true)
  ∨ (passScreen (state amy_on_snap) = false ∧ popup (state amy_on_snap) = None
     ∧ animating (state amy_on_snap) = true
     ∧ ∃ s', resolveLanding (state amy_on_snap) = Some s'
             ∧ animating s' = false ∧ is_Some (popup s'))
  ∨ (passScreen (state amy_on_snap) = false ∧ popup (state amy_on_snap) = None
     ∧ animating (state amy_on_snap) = false
     ∧ ∀ rnd, ∃ s', onRoll rnd (state amy_on_snap) = Some s'
                    ∧ animating s' = false ∧ is_Some (popup s')).
Proof.
  apply (play_never_gets_stuck (host := ascii_host) amy_on_snap); [|reflexivity].
  exact amy_on_snap_reachable.
Defined.

(** X10.  The roster of a state of the page never holds more than sixteen
    players; every name in it is non-empty and, [trim] being idempotent, is
    its own trimmed form (it has no white space at either end); and no two
    names are equal up to case. *)
Theorem reachable_roster_names {host : HostStrings} (w : World) :
  (∀ s, trim (trim s) = trim s) →
  reachable w →
  (length (players (state w)) ≤ 16)%nat
  ∧ Forall (λ p, Player.name p ≠ "" ∧ trim (Player.name p) = Player.name p)
           (players (state w))
  ∧ NoDup ((λ p, toLowerCase (Player.name p)) <$> players (state w)).
Proof.
  intros Hidem Ht%reachable_tidy. destruct Ht as [Hsize Hnames Hdiff _ _].
  split; [done|]. split; [|done].
  eapply Forall_impl; [exact Hnames|]. cbn.
  intros p [Hne [raw Hraw]]. split; [done|]. rewrite Hraw. apply Hidem.
Qed.

Lemma reachable_roster_names_witness :
  (length (players (state amy_wins)) ≤ 16)%nat
  ∧ Forall (λ p, Player.name p ≠ ""
                 ∧ trim (HostStrings := ascii_host) (Player.name p) = Player.name p)
           (players (state amy_wins))
  ∧ NoDup ((λ p, toLowerCase (HostStrings := ascii_host) (Player.name p))
             <$> players (state amy_wins)).
Proof.
  apply (reachable_roster_names (host := ascii_host) amy_wins).
  - exact ascii_trim_idem.
  - exact amy_wins_reachable.
Defined.

(** X11.  In a state of the page every player has a colour of the palette
    and no two players share one: with at most sixteen players and sixteen
    colours, [pickPlayerColor] never has to fall back on a colour in use. *)
Theorem reachable_colours_differ {host : HostStrings} (w : World) :
  reachable w →
  Forall (λ p, Player.color p ∈ PLAYER_COLORS) (players (state w))
  ∧ NoDup (Player.color <$> players (state w)).
Proof. intros Ht%reachable_tidy. by destruct Ht. Qed.

Lemma reachable_colours_differ_witness :
  Forall (λ p, Player.color p ∈ PLAYER_COLORS) (players (state amy_on_snap))
  ∧ NoDup (Player.color <$> players (state amy_on_snap)).
Proof.
  apply (reachable_colours_differ (host := ascii_host) amy_on_snap).
  exact amy_on_snap_reachable.
Defined.

(** X12.  A finished game has its winner.  The landing that finishes a game
    on a board whose only win cell is the last one leaves the current
    player on cell 34 and [winnerName] set to that player's name; and while
    the game stays finished no event handler changes the roster, the
    current index or [winnerName].  (Only the updaters of another roll, one
    begun while a token was still moving, can move the winner.) *)
Theorem finished_game_has_its_winner {host : HostStrings} :
  (∀ s s',
     exact_win_board (board s) →
     phase s ≠ finished →
     resolveLanding s = Some s' →
     phase s' = finished →
     ∃ me, arr_get (players s') (current s') = Some me
           ∧ Player.pos me = 34
           ∧ winnerName s' = Some (Player.name me))
  ∧ (∀ e w w',
       phase (state w) = finished →
       enabled e (state w) = true →
       handle e w = Some w' →
       phase (state w') = finished →
       players (state w') = players (state w)
       ∧ current (state w') = current (state w)
       ∧ winnerName (state w') = winnerName (state w)).
Proof.
  split.
  - intros s s' [_ Hwin] Hph
      (me & dest & t & Hme & _ & Ht & Hps & Hs')%resolveLanding_frame Hfin.
    rewrite Hs', resolveTile_phase in Hfin.
    case_bool_decide as Hty; [|done].
    apply (Hwin _ _ Ht) in Hty as Hdest. change WIN_INDEX with 34 in Hdest.
    exists (Player.with_pos dest me).
    rewrite Hs', resolveTile_current, resolveTile_winnerName, resolveTile_players.
    rewrite bool_decide_eq_true_2 by done.
    split; [rewrite Hps; by eapply arr_get_set_eq|]. done.
  - intros e w w' Hph Hen Hh Hfin.
    destruct e; cbn in Hen, Hh; rewrite ?Hph in Hen;
      try discriminate Hen; try (injection Hh as <-; cbn in *); try done.
    + unfold lift, onRoll in Hh. rewrite Hph in Hh.
      rewrite bool_decide_eq_true_2 in Hh by done. cbn in Hh.
      injection Hh as <-. done.
    + apply handlePopupPress_frame in Hh
        as [-> | [[_ ->] | (Hne & _)]]; done.
Qed.

Lemma finished_game_has_its_winner_witness :
  ∃ me, arr_get (players (state amy_wins)) (current (state amy_wins)) = Some me
        ∧ Player.pos me = 34
        ∧ winnerName (state amy_wins) = Some (Player.name me).
Proof.
  apply (proj1 (finished_game_has_its_winner (host := ascii_host))
           amy_on_34 (state amy_wins));
    [apply buildBoard_exact_win | discriminate | reflexivity | reflexivity].
Defined.

(** ** Turn order *)

Lemma advanceTurns_spec (k : nat) (s : GameState) :
  players s ≠ [] → 0 ≤ current s →
  advanceTurns (S k) s
  = Some {| phase := phase s; board := board s; players := players s;
            current := (current s + Z.of_nat (S k))
                       `mod` Z.of_nat (length (players s));
            passScreen := true; lastRoll := None; popup := None;
            timers := timers s; winnerName := winnerName s;
            animating := animating s |}.
Proof.
  revert s. induction k as [|k IH]; intros s Hne Hcur.
  - cbn [advanceTurns]. rewrite advanceTurn_spec by done. done.
  - change (advanceTurns (S (S k)) s)
      with (s' ← advanceTurn s; advanceTurns (S k) s').
    rewrite advanceTurn_spec by done. cbn [mbind option_bind].
    assert (Hn : 0 < Z.of_nat (length (players s)))
      by (destruct (players s); [done|cbn; lia]).
    rewrite IH; cbn; [|done|by apply Z.mod_pos_bound].
    do 2 f_equal. rewrite Zplus_mod_idemp_l. f_equal. lia.
Qed.

(** X13.  Turns go round in roster order: passing the turn on [k] times,
    [k] at least 1, from a valid current index leaves the index at
    (index + k) modulo the number of players and the roster as it was, so
    after as many turns as there are players it is the same player's turn
    again. *)
Theorem turns_go_round (k : nat) (s : GameState) :
  0 ≤ current s < Z.of_nat (length (players s)) →
  (1 ≤ k)%nat →
  ∃ s',
    advanceTurns k s = Some s'
    ∧ players s' = players s
    ∧ current s'
      = (current s + Z.of_nat k) `mod` Z.of_nat (length (players s))
    ∧ (k = length (players s) → current s' = current s).
Proof.
  intros Hcur Hk. destruct k as [|k]; [lia|].
  assert (Hne : players s ≠ []) by (intros Hnil; rewrite Hnil in Hcur; cbn in Hcur; lia).
  eexists. split; [by apply advanceTurns_spec; [|lia]|]. cbn [players current].
  split; [done|]. split; [done|]. intros ->.
  rewrite <- (Z.mul_1_l (Z.of_nat (length (players s)))) at 1.
  rewrite Z.mod_add by lia. apply Z.mod_small. lia.
Qed.

Lemma turns_go_round_witness :
  ∃ s',
    advanceTurns 3 game_at_30 = Some s'
    ∧ players s' = players game_at_30
    ∧ current s' = (0 + 3) `mod` 3
    ∧ (3%nat = length (players game_at_30) → current s' = 0).
Proof.
  apply (turns_go_round 3 game_at_30); [simpl; lia | lia].
Defined.

(** ** Adding and removing players *)

Lemma filter_keeps_all {A} (P : A → Prop) `{!∀ x, Decision (P x)} (l : list A) :
  (∀ x, x ∈ l → P x) → filter P l = l.
Proof.
  induction l as [|x l IH]; intros Hall; [done|].
  rewrite filter_cons_True by (apply Hall, list_elem_of_here).
  f_equal. apply IH. intros y Hy. apply Hall. by apply list_elem_of_further.
Qed.

Lemma with_players_same (s : GameState) : with_players (players s) s = s.
Proof. by destruct s. Qed.

(** X14.  Removing by an id that no player has changes nothing, and removing
    a player right after adding it under a fresh id gives the state before
    the addition back, whether the addition was accepted or refused. *)
Theorem removePlayer_undoes_addPlayer {host : HostStrings}
    (nameRaw uuid : string) (rnd : nat) (s : GameState) :
  (∀ p, p ∈ players s → Player.id p ≠ uuid) →
  removePlayer uuid s = s
  ∧ removePlayer uuid (addPlayer nameRaw uuid rnd s) = s.
Proof.
  intros Hfresh.
  assert (Hkeep : removePlayer uuid s = s).
  { unfold removePlayer. rewrite filter_keeps_all by done. apply with_players_same. }
  split; [done|]. unfold addPlayer.
  case_bool_decide; [done|]. case_bool_decide; [done|].
  destruct (existsb _ _); [done|].
  unfold removePlayer. cbn.
  rewrite filter_app, filter_keeps_all by done.
  rewrite filter_cons_False by (cbn; by intros ?). rewrite filter_nil, app_nil_r.
  by destruct s.
Qed.

Lemma removePlayer_undoes_addPlayer_witness :
  removePlayer "id-9" lobby_with_Amy = lobby_with_Amy
  ∧ removePlayer "id-9" (addPlayer (host := ascii_host) "Cy" "id-9" 4 lobby_with_Amy)
    = lobby_with_Amy.
Proof.
  apply (removePlayer_undoes_addPlayer (host := ascii_host)
           "Cy" "id-9" 4 lobby_with_Amy).
  intros p Hp. apply list_elem_of_singleton in Hp as ->. discriminate.
Defined.

(** ** Starting again *)

(** X15.  START after BACK TO LOBBY does not begin a new game: with two
    players or more it resumes play from the first player with every
    position and every timer as they were; with fewer it stays in the
    lobby. *)
Theorem start_after_back_to_lobby_keeps_positions (w : World) :
  ((2 ≤ length (players (state w)))%nat →
   startGame (state (backToLobby w))
   = {| phase := playing; board := board (state w);
        players := players (state w); current := 0; passScreen := true;
        lastRoll := None; popup := None; timers := timers (state w);
        winnerName := None; animating := false |})
  ∧ ((length (players (state w)) < 2)%nat →
     startGame (state (backToLobby w)) = state (backToLobby w)
     ∧ phase (startGame (state (backToLobby w))) = lobby).
Proof.
  split; intros Hn; unfold startGame; cbn.
  - by rewrite bool_decide_eq_false_2 by lia.
  - by rewrite bool_decide_eq_true_2 by lia.
Qed.

Lemma start_after_back_to_lobby_keeps_positions_witness :
  Player.pos <$> players (startGame (state (backToLobby amy_wins))) = [34; 5]
  ∧ phase (startGame (state (backToLobby amy_wins))) = playing.
Proof.
  rewrite (proj1 (start_after_back_to_lobby_keeps_positions amy_wins));
    [split; reflexivity | simpl; lia].
Defined.

(** ** Sweeps *)

Lemma with_timers_with_timers (a b : list GameTimer.t) (s : GameState) :
  with_timers a (with_timers b s) = with_timers a s.
Proof. done. Qed.

(** X16.  A sweep only ever drops timers, keeping the others in order; two
    sweeps in a row amount to one sweep at the later of the two times; and
    it makes no difference whether a timer is cleared before or after a
    sweep. *)
Theorem sweeps_compose (now now' : Z) (id : string) (s : GameState) :
  timers (sweepTick now s) `sublist_of` timers s
  ∧ sweepTick now' (sweepTick now s) = sweepTick (Z.max now now') s
  ∧ sweepTick now (clearTimer id s) = clearTimer id (sweepTick now s).
Proof.
  split; [apply sublist_filter|]. unfold sweepTick, clearTimer. cbn.
  rewrite !with_timers_with_timers, !list_filter_filter.
  split; f_equal; apply list_filter_iff; intros t; lia || tauto.
Qed.

(** ** The timers corner *)

Lemma two_digit_table :
  Forall (λ sec, padStart0 2 (String_of sec)
                 = String (digit (sec `div` 10)) (String (digit (sec `mod` 10)) ""))
         (seqZ 0 60).
Proof. compute_done. Qed.

Lemma fmt_shape (ms : Z) :
  let total := Z.max 0 (ms `div` 1000) in
  fmt ms
  = String_of (total `div` 60) +:+ ":"
    +:+ String (digit ((total `mod` 60) `div` 10))
          (String (digit ((total `mod` 60) `mod` 10)) "").
Proof.
  intros total. unfold fmt. fold total.
  rewrite Z.rem_mod_nonneg by lia.
  pose proof (Z.mod_pos_bound total 60) as Hsec.
  assert (Hin : total `mod` 60 ∈ seqZ 0 60) by (apply elem_of_seqZ; lia).
  by rewrite (proj1 (Forall_forall _ _) two_digit_table _ Hin).
Qed.

(** X17.  [fmt] writes a duration as the whole minutes, a colon and the
    seconds in exactly two digits, the seconds being below 60; anything
    under one second, negative durations included, reads 0:00. *)
Theorem fmt_minutes_colon_two_digits (ms : Z) :
  let total := Z.max 0 (ms `div` 1000) in
  fmt ms
  = String_of (total `div` 60) +:+ ":"
    +:+ String (digit ((total `mod` 60) `div` 10))
          (String (digit ((total `mod` 60) `mod` 10)) "")
  ∧ 0 ≤ total `mod` 60 < 60
  ∧ (ms < 1000 → fmt ms = "0:00").
Proof.
  intros total. split; [apply fmt_shape|].
  split; [apply Z.mod_pos_bound; lia|].
  intros Hms. rewrite fmt_shape.
  assert (Z.max 0 (ms `div` 1000) = 0) as ->; [|done].
  pose proof (Z.div_lt_upper_bound ms 1000 1). lia.
Qed.

Lemma fmt_minutes_colon_two_digits_witness : fmt 999 = "0:00".
Proof. apply (fmt_minutes_colon_two_digits 999). lia. Defined.

Example fmt_ten_minutes : fmt 600000 = "10:00".
Proof. reflexivity. Qed.

Example fmt_one_hour_less_a_second : fmt 3599000 = "59:59".
Proof. reflexivity. Qed.

Lemma fmt_not_DONE (ms : Z) : fmt ms ≠ "DONE".
Proof.
  rewrite fmt_shape. cbn zeta.
  destruct (String_of _) as [|c1 [|c2 [|c3 [|c4 [|c5 r]]]]];
    intros Heq; cbv beta iota delta [String.append] in Heq; congruence.
Qed.

(** X18.  The timers corner shows DONE for a timer exactly when its end is
    not after the current time, and a sweep at that time keeps exactly the
    timers that do not show DONE: during play a finished timer is on
    screen only until the next sweep. *)
Theorem sweep_drops_what_shows_DONE (now : Z) (s : GameState) (t : GameTimer.t) :
  (timerText now t = "DONE" ↔ GameTimer.endsAt t ≤ now)
  ∧ (t ∈ timers (sweepTick now s) ↔ t ∈ timers s ∧ timerText now t ≠ "DONE").
Proof.
  assert (Hdone : timerText now t = "DONE" ↔ GameTimer.endsAt t ≤ now).
  { unfold timerText. cbn zeta. case_bool_decide as Hrem.
    - split; [lia|done].
    - split; [by intros ?%fmt_not_DONE|lia]. }
  split; [done|]. unfold sweepTick. cbn. rewrite list_elem_of_filter, Hdone.
  intuition lia.
Qed.

(** ** Saving and loading *)

(** X19.  What [saveState] writes is what [loadState] reads: after a save
    the key holds the serialised state and every other key is untouched, a
    load returns the parse of that text whenever the parse has truthy
    [board] and [players]; after [clearSaved] a load returns nothing,
    whatever was saved before; and a store that cannot be used is left alone
    and loads nothing. *)
Theorem saved_snapshot_round_trip (parse : string → option JsValue)
    (stringify : GameState → string) (s : GameState)
    (items : gmap string string) :
  let st := saveState stringify s (Available items) in
  getItem st KEY = Some (Some (stringify s))
  ∧ (∀ k, k ≠ KEY → getItem st k = getItem (Available items) k)
  ∧ (∀ v b p,
       stringify s ≠ "" → parse (stringify s) = Some v →
       get_field "board" v = Some b → truthy b = true →
       get_field "players" v = Some p → truthy p = true →
       loadState parse st = Some v)
  ∧ loadState parse (clearSaved st) = None
  ∧ clearSaved st = clearSaved (Available items)
  ∧ saveState stringify s Unavailable = Unavailable
  ∧ loadState parse Unavailable = None.
Proof.
  intros st. subst st. unfold saveState.
  split; [cbn; by rewrite lookup_insert_eq|].
  split; [intros k Hk; cbn; by rewrite lookup_insert_ne|].
  split.
  { intros v b p Hraw Hparse Hb Htb Hp Htp. apply loadState_Some.
    exists (stringify s), b, p. cbn. by rewrite lookup_insert_eq. }
  split; [unfold loadState; cbn; by rewrite lookup_delete_eq|].
  split; [cbn; by rewrite delete_insert_eq|done].
Qed.

Lemma saved_snapshot_round_trip_witness :
  loadState one_text_parse
    (saveState one_text_stringify game_at_30 (Available ∅))
  = Some (JObj [ ("board", JArr []); ("players", JArr []) ]).
Proof.
  refine (proj1 (proj2 (proj2
    (saved_snapshot_round_trip one_text_parse one_text_stringify game_at_30 ∅)))
    _ (JArr []) (JArr []) _ _ _ _ _ _); (discriminate || reflexivity).
Defined.

(** ** The popup and the cell *)

Lemma tilePopup_action (t : TileType) :
  (Popup.action (tilePopup t) = startSnapTimer ↔ t = snap)
  ∧ (Popup.action (tilePopup t) = startTikTokTimer ↔ t = tiktok)
  ∧ (Popup.button (tilePopup t) = "NEW GAME" ↔ t = win).
Proof. destruct t; cbn; repeat split; congruence. Qed.

Lemma resolveLanding_final_cell (s s' : GameState) :
  resolveLanding s = Some s' →
  ∃ me t,
    arr_get (players s') (current s') = Some me
    ∧ arr_get (board s) (Player.pos me) = Some t
    ∧ s' = resolveTile s (players s') me (Tile.type t).
Proof.
  unfold resolveLanding.
  destruct (arr_get (players s) (current s)) as [me|] eqn:Hme; [|done].
  cbn [mbind option_bind].
  destruct (arr_get (board s) (Player.pos me)) as [tile|] eqn:Htile; [|done].
  cbn [mbind option_bind]. case_bool_decide.
  - cbn [Player.pos Player.with_pos].
    destruct (arr_get (board s) (clamp (Player.pos me - 5) 0 WIN_INDEX))
      as [landed|] eqn:Hlanded; [|done].
    cbn [mbind option_bind]. intros [= <-].
    eexists _, landed. rewrite resolveTile_players, resolveTile_current.
    split; [by eapply arr_get_set_eq|]. by split.
  - intros [= <-]. exists me, tile.
    rewrite resolveTile_players, resolveTile_current. by repeat split.
Qed.

(** X20.  After a roll the popup is that of the cell the player stands on
    in the end, the cell five back when a back-5 cell was hit: it asks for
    the snap timer exactly on a snap cell, for the tiktok timer exactly on a
    tiktok cell, offers NEW GAME exactly on a win cell, and the game
    becomes finished exactly by standing on a win cell. *)
Theorem popup_is_of_the_final_cell (steps : Z) (s s' : GameState) :
  animateMove steps s = Some s' →
  ∃ me t p,
    arr_get (players s') (current s') = Some me
    ∧ arr_get (board s') (Player.pos me) = Some t
    ∧ popup s' = Some p
    ∧ p = tilePopup (Tile.type t)
    ∧ (Popup.action p = startSnapTimer ↔ Tile.type t = snap)
    ∧ (Popup.action p = startTikTokTimer ↔ Tile.type t = tiktok)
    ∧ (Popup.button p = "NEW GAME" ↔ Tile.type t = win)
    ∧ (phase s' = finished ↔ Tile.type t = win ∨ phase s = finished).
Proof.
  unfold animateMove.
  destruct (moveToken steps s) as [s1|] eqn:Hmove; [|done].
  cbn [mbind option_bind].
  assert (Hph : phase s1 = phase s).
  { unfold moveToken in Hmove.
    destruct (arr_get (players s) (current s)) as [p0|] eqn:Hp0; [|done].
    cbn [mbind option_bind] in Hmove.
    by apply (walk_frame _ _ _ _ p0) in Hmove as (_ & _ & ? & _). }
  intros (me & t & Hme & Ht & Hs')%resolveLanding_final_cell.
  exists me, t, (tilePopup (Tile.type t)).
  destruct (tilePopup_action (Tile.type t)) as (Hsnap & Htik & Hnew).
  split; [done|]. rewrite Hs'.
  rewrite resolveTile_board, resolveTile_popup, resolveTile_phase, Hph.
  repeat (split; [done|]).
  case_bool_decide; [by intuition|]. split; [by right|]. by intros [?|?].
Qed.

Lemma popup_is_of_the_final_cell_witness :
  ∃ me t p,
    arr_get (players (state amy_wins)) (current (state amy_wins)) = Some me
    ∧ arr_get (board (state amy_wins)) (Player.pos me) = Some t
    ∧ popup (state amy_wins) = Some p
    ∧ p = tilePopup (Tile.type t)
    ∧ (Popup.action p = startSnapTimer ↔ Tile.type t = snap)
    ∧ (Popup.action p = startTikTokTimer ↔ Tile.type t = tiktok)
    ∧ (Popup.button p = "NEW GAME" ↔ Tile.type t = win)
    ∧ (phase (state amy_wins) = finished ↔ Tile.type t = win ∨ playing = finished).
Proof.
  apply (popup_is_of_the_final_cell 5
           {| phase := playing; board := buildBoard;
              players := [ Player.mk "id-1" "Amy" 29 "#FF3B30";
                           Player.mk "id-2" "Bo" 5 "#FFCC00" ];
              current := 0; passScreen := false; lastRoll := None; popup := None;
              timers := [ GameTimer.mk "t-1" "SNAP: Amy" 600500 ];
              winnerName := None; animating := false |}
           (state amy_wins)).
  reflexivity.
Defined.

(** ** The board *)

Lemma board_table :
  Forall (λ k,
            from_option
              (λ t, bool_decide (Tile.i t = k)
                    && bool_decide (Tile.type t = start ↔ k = 0)
                    && bool_decide (Tile.type t = win ↔ k = 34)
                    && bool_decide (Tile.type t = path → Tile.label t = String_of k))
              false (arr_get buildBoard k)
            = true)
         (seqZ 0 35).
Proof. compute_done. Qed.

(** X21.  The helper [set] of [buildBoard] never changes the number of
    cells, ignores an index outside 0..34 and otherwise puts a cell that
    carries that index; the board built with it has 35 cells, each carrying
    its own index, its only start cell on 0 and its only win cell on 34, and
    every plain cell is labelled with its number. *)
Theorem board_cells_know_their_place :
  (∀ b k ty l, length (set b k ty l) = length b)
  ∧ (∀ b k ty l, ¬ 0 ≤ k < 35 → set b k ty l = b)
  ∧ (∀ b k ty l t, 0 ≤ k < 35 → arr_get (set b k ty l) k = Some t →
                   t = Tile.mk k ty l)
  ∧ length buildBoard = 35%nat
  ∧ (∀ k t, arr_get buildBoard k = Some t →
            Tile.i t = k
            ∧ (Tile.type t = start ↔ k = 0)
            ∧ (Tile.type t = win ↔ k = 34)
            ∧ (Tile.type t = path → Tile.label t = String_of k)).
Proof.
  split; [|split; [|split; [|split; [reflexivity|]]]].
  - intros b k ty l. unfold set. case_bool_decide; [done|]. apply length_arr_set.
  - intros b k ty l Hk. unfold set. rewrite bool_decide_eq_true_2; [done|].
    change TILE_COUNT with 35. lia.
  - intros b k ty l t Hk. unfold set.
    rewrite bool_decide_eq_false_2 by (change TILE_COUNT with 35; lia).
    intros Hget. pose proof Hget as Hin%arr_get_bounds.
    rewrite length_arr_set in Hin.
    destruct (arr_get_lt b k Hin) as [old Hold].
    rewrite (arr_get_set_eq b k old) in Hget by done. by injection Hget as <-.
  - intros k t Hk. pose proof Hk as Hin%arr_get_bounds.
    rewrite buildBoard_length in Hin.
    pose proof (proj1 (Forall_forall _ _) board_table k (cell_in_range k Hin))
      as Hrow.
    cbv beta in Hrow. rewrite Hk in Hrow. cbn [from_option] in Hrow.
    apply andb_prop in Hrow as [[[Hi Hstart]%andb_prop Hwin]%andb_prop Hpath].
    apply bool_decide_eq_true in Hi, Hstart, Hwin, Hpath. done.
Qed.

Lemma board_cells_know_their_place_witness :
  Tile.i (Tile.mk 12 back5 "BACK 5") = 12
  ∧ (back5 = start ↔ 12 = 0)
  ∧ (back5 = win ↔ 12 = 34)
  ∧ (back5 = path → "BACK 5" = String_of 12).
Proof.
  apply (proj2 (proj2 (proj2 (proj2 board_cells_know_their_place)))
           12 (Tile.mk 12 back5 "BACK 5")).
  reflexivity.
Defined.
